(** * Cryptography_Chat: the RSA engine of [rsa.py] and its callers in
    [criptochat.py], as Rocq functions.

    Python integers are unbounded, so they are [Z].  Exceptions are an
    explicit result type.  The calls to [random] read a tape of raw
    integers, and the position on the tape is threaded through every
    function that draws random numbers.  Loops that Python writes as
    [while] take a [fuel] bound, which an iteration passes on, less one, to
    the loops it calls; running out of it is the separate outcome
    [Diverge], never a value. *)

From Stdlib Require Import ZArith Lia List Bool String Ascii.
From Stdlib Require Import Zmod.
From stdpp Require Import gmap.
Import ListNotations.

Local Open Scope Z_scope.

(** ** The Python runtime the code relies on *)

Module Py.

(** The exception classes that the two source files raise or catch.
    [ArithmeticError] and [DomainError] are the error kinds of the
    [modular] library, [UserNotFound] is declared in [criptochat.py]. *)
Inductive excepcion : Set :=
| ValueError
| AssertionError
| OverflowError
| TypeError
| ArithmeticError
| DomainError
| UserNotFound.

Definition excepcion_eqb (a b : excepcion) : bool :=
  match a, b with
  | ValueError, ValueError | AssertionError, AssertionError
  | OverflowError, OverflowError | TypeError, TypeError
  | ArithmeticError, ArithmeticError | DomainError, DomainError
  | UserNotFound, UserNotFound => true
  | _, _ => false
  end.

(** What a call does: it returns, it raises, or its loop outlives the fuel. *)
Inductive resultado (A : Type) : Type :=
| Ok (a : A)
| Raise (e : excepcion)
| Diverge.
Arguments Ok {A} a.
Arguments Raise {A} e.
Arguments Diverge {A}.

Definition ligar_r {A B : Type} (r : resultado A) (k : A -> resultado B) : resultado B :=
  match r with
  | Ok a => k a
  | Raise e => Raise e
  | Diverge => Diverge
  end.

(** The tape of raw random integers and the monad of code that reads it:
    the position survives an exception, as the generator's state does. *)
Definition cinta : Type := nat -> Z.
Definition M (A : Type) : Type := cinta -> nat -> resultado A * nat.

Definition ret {A : Type} (a : A) : M A := fun _ i => (Ok a, i).
Definition lanzar {A : Type} (e : excepcion) : M A := fun _ i => (Raise e, i).
Definition elevar {A : Type} (r : resultado A) : M A := fun _ i => (r, i).
Definition ligar {A B : Type} (m : M A) (k : A -> M B) : M B :=
  fun t i =>
    match m t i with
    | (Ok a, j) => k a t j
    | (Raise e, j) => (Raise e, j)
    | (Diverge, j) => (Diverge, j)
    end.

(** [random.randint(a, b)]: an integer of [[a, b]], [ValueError] on an
    empty range. *)
Definition randint (a b : Z) : M Z :=
  fun t i =>
    if a <=? b then (Ok (a + t i mod (b - a + 1)), S i) else (Raise ValueError, i).

(** [random.randrange(a, b, paso)] for a positive step: one of
    [a, a + paso, ...] below [b], [ValueError] on an empty range. *)
Definition randrange (a b paso : Z) : M Z :=
  fun t i =>
    let n := (b - a + paso - 1) / paso in
    if 0 <? n then (Ok (a + paso * (t i mod n)), S i) else (Raise ValueError, i).

(** [str(m)] of an integer: its decimal digits, most significant first. *)
Definition digito (d : Z) : ascii := ascii_of_nat (48 + Z.to_nat d).

Fixpoint str_aux (fuel : nat) (m : Z) (acc : string) : string :=
  match fuel with
  | O => acc
  | S f =>
      let acc' := String (digito (m mod 10)) acc in
      if m <? 10 then acc' else str_aux f (m / 10) acc'
  end.

Definition str (m : Z) : string :=
  if m <? 0
  then String "-"%char (str_aux (S (Z.to_nat (Z.log2 (- m)))) (- m) EmptyString)
  else str_aux (S (Z.to_nat (Z.log2 m))) m EmptyString.

(** [int(s)] on a string: the decimal literals that the code builds are
    plain digit strings; anything else is a [ValueError]. *)
Definition valor_digito (c : ascii) : option Z :=
  let n := Z.of_nat (nat_of_ascii c) in
  if (48 <=? n) && (n <=? 57) then Some (n - 48) else None.

Fixpoint int_aux (acc : Z) (s : string) : resultado Z :=
  match s with
  | EmptyString => Ok acc
  | String c r =>
      match valor_digito c with
      | Some d => int_aux (10 * acc + d) r
      | None => Raise ValueError
      end
  end.

Definition int (s : string) : resultado Z :=
  match s with
  | EmptyString => Raise ValueError
  | _ => int_aux 0 s
  end.

(** [int(log10(m))].  [math.log10] is taken as the real logarithm, so the
    value is the exact floor of the base-10 logarithm for [m >= 1]; the
    rounding of double-precision floats is outside this model.  On
    [m <= 0] [math.log10] raises [ValueError] (math domain error). *)
Fixpoint piso_log10 (fuel : nat) (m : Z) : Z :=
  match fuel with
  | O => 0
  | S f => if m <? 10 then 0 else 1 + piso_log10 f (m / 10)
  end.

Definition int_log10 (m : Z) : resultado Z :=
  if m <=? 0 then Raise ValueError
  else Ok (piso_log10 (S (Z.to_nat (Z.log2 m))) m).

(** A Python [str] value is the sequence of its code points; [ord] is the
    identity on them. *)
Definition cadena : Type := list Z.

Definition literal (s : string) : cadena :=
  map (fun c => Z.of_nat (nat_of_ascii c)) (list_ascii_of_string s).

(** [chr(x)]: [OverflowError] when [x] does not fit a C [int],
    [ValueError] when it is outside [range(0x110000)]. *)
Definition chr (x : Z) : resultado Z :=
  if (x <? - 2147483648) || (2147483647 <? x) then Raise OverflowError
  else if (0 <=? x) && (x <? 1114112) then Ok x
  else Raise ValueError.

(** A comprehension over a list, left to right, stopping at the first
    exception. *)
Fixpoint comprension {A B : Type} (f : A -> M B) (l : list A) : M (list B) :=
  match l with
  | [] => ret []
  | x :: r => ligar (f x) (fun y => ligar (comprension f r) (fun ys => ret (y :: ys)))
  end.

Fixpoint comprension_r {A B : Type} (f : A -> resultado B) (l : list A) : resultado (list B) :=
  match l with
  | [] => Ok []
  | x :: r => ligar_r (f x) (fun y => ligar_r (comprension_r f r) (fun ys => Ok (y :: ys)))
  end.

End Py.
Import Py.

Notation "x <- e ;; k" := (ligar e (fun x => k))
  (at level 200, e at level 99, k at level 200, only parsing).
Notation "x <-? e ;; k" := (ligar_r e (fun x => k))
  (at level 200, e at level 99, k at level 200, only parsing).

(** ** The modular arithmetic library [modular]

    [rsa.py] imports it; its file is not part of the sources at hand, so
    each function below is written from its contract in the specification
    (section 4.1). *)

Module modular.

(** Modelled from the spec: [modular.es_primo] (is_prime), taken as the
    deterministic test: [n > 1] and no divisor in [[2, n)]. *)
Fixpoint sin_divisor (fuel : nat) (n d : Z) : bool :=
  match fuel with
  | O => true
  | S f => negb (n mod d =? 0) && sin_divisor f n (d + 1)
  end.

Definition es_primo (n : Z) : bool :=
  (1 <? n) && sin_divisor (Z.to_nat (n - 2)) n 2.

(** Modelled from the spec: [modular.potencia_mod_p] (mod_pow), binary
    exponentiation of [base] to [exponente] modulo [modulo]; an arithmetic
    error when [modulo <= 0].  The spec fixes no result for a negative
    exponent: the loop then has nothing to do and the result is [1]. *)
Fixpoint potencia_bin (base : Z) (e : positive) (m : Z) : Z :=
  match e with
  | xH => base mod m
  | xO e' => let r := potencia_bin base e' m in (r * r) mod m
  | xI e' => let r := potencia_bin base e' m in (((r * r) mod m) * base) mod m
  end.

Definition potencia_mod_p (base exponente modulo : Z) : resultado Z :=
  if modulo <=? 0 then Raise ArithmeticError
  else match exponente with
       | Zpos e => Ok (potencia_bin base e modulo)
       | _ => Ok (1 mod modulo)
       end.

(** Modelled from the spec: [modular.inversa_mod_p] (mod_inverse), the
    extended Euclidean algorithm on [(a, modulo)]; the [x] of
    [[0, modulo)] with [a * x = 1 (mod modulo)], a domain error when no
    such [x] exists. *)
Fixpoint euclides (fuel : nat) (r0 s0 r1 s1 : Z) : Z * Z :=
  match fuel with
  | O => (r0, s0)
  | S f =>
      if r1 =? 0 then (r0, s0)
      else let q := r0 / r1 in euclides f r1 s1 (r0 - q * r1) (s0 - q * s1)
  end.

Definition inversa_mod_p (a modulo : Z) : resultado Z :=
  if modulo <=? 0 then Raise DomainError
  else
    let '(g, x) :=
      euclides (S (S (S (Z.to_nat (2 * Z.log2 modulo))))) modulo 0 (a mod modulo) 1 in
    if g =? 1 then Ok (x mod modulo) else Raise DomainError.

(** Modelled from the spec: [modular.coprimos] (are_coprime),
    [gcd(a, b) == 1]. *)
Definition coprimos (a b : Z) : bool := Z.gcd a b =? 1.

(** Modelled from the spec: [modular.euler] (euler_totient), which factors
    [n] into its two prime factors [p] and [q] by trial division and
    returns [(p - 1) * (q - 1)]. *)
Fixpoint buscar_factor (fuel : nat) (n d : Z) : Z :=
  match fuel with
  | O => n
  | S f => if n mod d =? 0 then d else buscar_factor f n (d + 1)
  end.

Definition menor_factor (n : Z) : Z := buscar_factor (Z.to_nat (Z.sqrt n - 1)) n 2.

Definition euler (n : Z) : Z :=
  let p := menor_factor n in
  let q := n / p in
  (p - 1) * (q - 1).

End modular.

(** ** [rsa.py] *)

Module rsa.
Import modular.

(** [modular.NE], the value [anterior_primo] returns when no smaller prime
    exists.  The source tells it apart from a prime with
    [isinstance(p, float)], so a variable that holds "a prime or NE" is
    this sum; as a float that is no prime, [NE] is in no list of primes. *)
Inductive primo_o_NE : Set :=
| Entero (p : Z)
| NE.

(** What [generar_numeros_primos] hands back: the prime itself when one
    was asked for, the tuple of them otherwise. *)
Inductive primos : Set :=
| Uno (p : Z)
| Tupla (ps : list Z).

Definition lista_de (v : primos) : list Z :=
  match v with
  | Uno p => [p]
  | Tupla ps => ps
  end.

(** The loop [while not modular.es_primo(n): n += 1]. *)
Fixpoint subir (fuel : nat) (n : Z) : resultado Z :=
  if es_primo n then Ok n
  else match fuel with
       | O => Diverge
       | S f => subir f (n + 1)
       end.

Definition siguiente_primo (fuel : nat) (n : Z) : resultado Z :=
  subir fuel (n + 1).

(** The loop [while not modular.es_primo(n): n -= 1]. *)
Fixpoint bajar (fuel : nat) (n : Z) : resultado Z :=
  if es_primo n then Ok n
  else match fuel with
       | O => Diverge
       | S f => bajar f (n - 1)
       end.

Definition anterior_primo (fuel : nat) (n : Z) : resultado primo_o_NE :=
  if 2 <? n then (p <-? bajar fuel (n - 1) ;; Ok (Entero p)) else Ok NE.

Definition esta_en (p : Z) (l : list Z) : bool := existsb (Z.eqb p) l.

(** [while p in output_primos: p = siguiente_primo(p)] *)
Fixpoint saltar_arriba (fuel : nat) (output_primos : list Z) (p : Z) : resultado Z :=
  if esta_en p output_primos
  then match fuel with
       | O => Diverge
       | S f =>
           p' <-? siguiente_primo f p ;;
           saltar_arriba f output_primos p'
       end
  else Ok p.

(** [while p in output_primos: p = anterior_primo(p)] *)
Fixpoint saltar_abajo (fuel : nat) (output_primos : list Z) (p : primo_o_NE)
  : resultado primo_o_NE :=
  match p with
  | NE => Ok NE
  | Entero z =>
      if esta_en z output_primos
      then match fuel with
           | O => Diverge
           | S f =>
               p' <-? anterior_primo f z ;;
               saltar_abajo f output_primos p'
           end
      else Ok p
  end.

(** The body of [for n in lista_aleatorios], up to the [append]. *)
Definition elegir_primo (fuel : nat) (min_primo max_primo : Z)
    (output_primos : list Z) (n : Z) : resultado Z :=
  p <-? siguiente_primo fuel n ;;
  p <-? saltar_arriba fuel output_primos p ;;
  p <-? (if max_primo <=? p
         then (q <-? anterior_primo fuel max_primo ;;
               saltar_abajo fuel output_primos q)
         else Ok (Entero p)) ;;
  match p with
  | NE => Raise ValueError
  | Entero z => if z <? min_primo then Raise ValueError else Ok z
  end.

Fixpoint recorrer (fuel : nat) (min_primo max_primo : Z)
    (lista_aleatorios output_primos : list Z) : resultado (list Z) :=
  match lista_aleatorios with
  | [] => Ok output_primos
  | n :: resto =>
      p <-? elegir_primo fuel min_primo max_primo output_primos n ;;
      recorrer fuel min_primo max_primo resto (output_primos ++ [p])
  end.

Definition rango (n : Z) : list Z := map Z.of_nat (seq 0 (Z.to_nat n)).

Definition generar_numeros_primos (fuel : nat) (min_primo max_primo numero : Z)
  : M primos :=
  if numero <? 1 then lanzar ValueError
  else if max_primo <? min_primo then lanzar ValueError
  else
    lista_aleatorios <-
      comprension (fun _ => randint (min_primo - 1) max_primo) (rango numero) ;;
    output_primos <- elevar (recorrer fuel min_primo max_primo lista_aleatorios []) ;;
    ret (match output_primos with
         | [p] => Uno p
         | _ => Tupla output_primos
         end).

(** The loop [while True] of [generar_claves]. *)
Fixpoint elegir_e (fuel : nat) (phi : Z) : M Z :=
  match fuel with
  | O => elevar Diverge
  | S f =>
      e <- randrange 1 phi 2 ;;
      if coprimos phi e then ret e else elegir_e f phi
  end.

Definition generar_claves (fuel : nat) (min_primo max_primo : Z) : M (Z * Z * Z) :=
  ps <- generar_numeros_primos fuel min_primo max_primo 2 ;;
  match ps with
  | Tupla [primo_1; primo_2] =>
      let n := primo_1 * primo_2 in
      let phi := (primo_1 - 1) * (primo_2 - 1) in
      e <- elegir_e fuel phi ;;
      d <- elevar (inversa_mod_p e phi) ;;
      ret (n, e, d)
  | Tupla _ => lanzar ValueError
  | Uno _ => lanzar TypeError
  end.

(** ["".join(str(random.randint(0, 9)) for __ in range(0, digitos_padding))] *)
Fixpoint relleno (k : nat) : M string :=
  match k with
  | O => ret EmptyString
  | S k' =>
      d <- randint 0 9 ;;
      r <- relleno k' ;;
      ret (append (str d) r)
  end.

Definition aplicar_padding (m digitos_padding : Z) : M Z :=
  if (digitos_padding <? 0) || (m <? 0) then lanzar ValueError
  else
    r <- relleno (Z.to_nat digitos_padding) ;;
    elevar (int (append (str m) r)).

Definition eliminar_padding (m digitos_padding : Z) : resultado Z :=
  if 0 <=? digitos_padding
  then
    l <-? int_log10 m ;;
    if digitos_padding <? l + 1
    then Ok (m / 10 ^ digitos_padding)
    else Raise ValueError
  else Raise ValueError.

Definition cifrar_rsa (m n e digitos_padding : Z) : M Z :=
  if (m <? 0) || (n <? 0) || (e <? 0) || (digitos_padding <? 0)
  then lanzar ValueError
  else
    lm <- elevar (int_log10 m) ;;
    ln <- elevar (int_log10 n) ;;
    if lm + 1 + digitos_padding <? ln + 1
    then
      m' <- aplicar_padding m digitos_padding ;;
      elevar (potencia_mod_p m' e n)
    else lanzar AssertionError.

Definition descifrar_rsa (c n d digitos_padding : Z) : resultado Z :=
  c' <-? potencia_mod_p c d n ;;
  eliminar_padding c' digitos_padding.

Definition cifrar_cadena_rsa (s : cadena) (n e digitos_padding : Z) : M (list Z) :=
  comprension (fun char => cifrar_rsa char n e digitos_padding) s.

Definition descifrar_cadena_rsa (clist : list Z) (n d digitos_padding : Z)
  : resultado cadena :=
  comprension_r (fun c => x <-? descifrar_rsa c n d digitos_padding ;; chr x) clist.

Definition romper_clave (n e : Z) : resultado Z :=
  if 1 <? e
  then
    let phi := euler n in
    if (e <? phi) && coprimos phi e
    then inversa_mod_p e phi
    else Raise AssertionError
  else Raise AssertionError.

Definition ataque_texto_plano (clist : list Z) (n e : Z) : resultado cadena :=
  d <-? romper_clave n e ;;
  descifrar_cadena_rsa clist n d 0.

End rsa.

(** ** [criptochat.py] *)

Module criptochat.
Import rsa.

Record UserKey : Type := mkUserKey {
  public_key : Z * Z;
  private_key : Z * Z
}.

Definition nueva_clave (n e d : Z) : UserKey :=
  {| public_key := (n, e); private_key := (n, d) |}.

(** A container of the inbox: sender id, date, and the encrypted message
    or [None] when it was corrupted. *)
Definition contenedor : Type := Z * cadena * option (list Z).

Record User : Type := mkUser {
  username : cadena;
  user_key : UserKey;
  id : Z;
  inbox : option (list contenedor)
}.

(** The two module globals that the functions below read. *)
Record globales : Type := mkGlobales {
  PADDING_DIGITS : Z;
  USERS : gmap Z User
}.

(** The values the module gives its globals when it is loaded:
    [PADDING_DIGITS = 10] and [USERS = {}]. *)
Definition globales_iniciales : globales :=
  {| PADDING_DIGITS := 10; USERS := ∅ |}.

Definition cadena_eqb (a b : cadena) : bool :=
  (length a =? length b)%nat && forallb (fun '(x, y) => x =? y) (combine a b).

(** [try: ... except e: ...] around code that draws no random numbers. *)
Definition capturar_r {A : Type} (e : excepcion) (cuerpo manejador : resultado A)
  : resultado A :=
  match cuerpo with
  | Raise e' => if excepcion_eqb e e' then manejador else Raise e'
  | r => r
  end.

Definition mensaje_prueba : cadena := literal "test-message".
Definition MENSAJE_CORRUPTO : cadena := literal "MENSAJE CORRUPTO".

Definition valid (g : globales) (n e d : Z) : M bool :=
  fun t i =>
    let '(r, j) :=
      (cs <- cifrar_cadena_rsa mensaje_prueba n e (PADDING_DIGITS g) ;;
       elevar (descifrar_cadena_rsa cs n d (PADDING_DIGITS g))) t i in
    match r with
    | Ok s => (Ok (cadena_eqb mensaje_prueba s), j)
    | Raise OverflowError => (Ok false, j)
    | Raise ex => (Raise ex, j)
    | Diverge => (Diverge, j)
    end.

Definition find_user (g : globales) (username_id : Z) : resultado User :=
  match USERS g !! username_id with
  | Some u => Ok u
  | None => Raise UserNotFound
  end.

(** The loop [for container in self.inbox] of [check_inbox]. *)
Fixpoint descifrar_inbox (g : globales) (self : User) (pendientes : list contenedor)
    (decrypted_messages : list (cadena * cadena * cadena))
  : resultado (list (cadena * cadena * cadena)) :=
  match pendientes with
  | [] => Ok decrypted_messages
  | (username_id, date, message) :: resto =>
      user <-? find_user g username_id ;;
      match message with
      | None =>
          descifrar_inbox g self resto
            (decrypted_messages ++ [(username user, date, MENSAJE_CORRUPTO)])
      | Some clist =>
          let '(n, d) := private_key (user_key self) in
          entrada <-?
            capturar_r ValueError
              (s <-? descifrar_cadena_rsa clist n d (PADDING_DIGITS g) ;;
               Ok (username user, date, s))
              (Ok (username user, date, MENSAJE_CORRUPTO)) ;;
          descifrar_inbox g self resto (decrypted_messages ++ [entrada])
      end
  end.

Definition check_inbox (g : globales) (self : User)
  : resultado (option (list (cadena * cadena * cadena))) :=
  match inbox self with
  | None => Ok None
  | Some contenedores =>
      r <-? descifrar_inbox g self contenedores [] ;;
      Ok (Some r)
  end.

End criptochat.

(** ** [criptochat.py]: the functions that change users

    A [User] is a mutable object: [send_message] and the key and padding
    changes update the inbox of an object that [USERS], the menu and the
    caller all hold.  So the objects live in a heap, a variable that holds
    a [User] holds its address, and [USERS] maps ids to addresses, in
    insertion order as a Python [dict] does.  A function called on an
    address with no object answers [TypeError]; no variable of the program
    holds such an address. *)

Module objetos.
Import rsa criptochat.

Record estado : Type := mkEstado {
  heap : gmap nat User;
  USERS : list (Z * nat);
  PADDING_DIGITS : Z
}.

(** Code that changes the objects and may read the random tape; the state
    it leaves is there after an exception too. *)
Definition Ms (A : Type) : Type := estado -> cinta -> nat -> resultado A * estado * nat.

(** [d[k]] and [d[k] = v] on a [dict]: an assignment to a present key keeps
    its place, a new key goes last. *)
Fixpoint dict_get {V : Type} (k : Z) (d : list (Z * V)) : option V :=
  match d with
  | [] => None
  | (k', v) :: r => if k' =? k then Some v else dict_get k r
  end.

Fixpoint dict_set {V : Type} (k : Z) (v : V) (d : list (Z * V)) : list (Z * V) :=
  match d with
  | [] => [(k, v)]
  | (k', v') :: r => if k' =? k then (k, v) :: r else (k', v') :: dict_set k v r
  end.

(** The globals as the reading functions of [criptochat] see them: every
    id with the object it stands for. *)
Definition vista (s : estado) : globales :=
  {| criptochat.PADDING_DIGITS := PADDING_DIGITS s;
     criptochat.USERS :=
       foldr (fun '(k, r) m =>
                match heap s !! r with
                | Some u => <[k := u]> m
                | None => delete k m
                end) ∅ (USERS s) |}.

Definition find_user (s : estado) (username_id : Z) : resultado nat :=
  match dict_get username_id (USERS s) with
  | Some r => Ok r
  | None => Raise UserNotFound
  end.

Definition con_inbox (u : User) (i : option (list contenedor)) : User :=
  {| username := username u; user_key := user_key u; id := id u; inbox := i |}.


Definition guardar (r : nat) (u : User) (s : estado) : estado :=
  {| heap := <[r := u]> (heap s); USERS := USERS s; PADDING_DIGITS := PADDING_DIGITS s |}.

(** [User.__init__] with a key given ([user_key=None] fails at its
    [print]): [not user_id] holds for [None] and for [0], and the new
    object is stored under its id. *)
Definition User_init (username : cadena) (user_key : UserKey) (user_id : option Z)
    (inbox : option (list contenedor)) (s : estado) : estado * nat :=
  let self := fresh (dom (heap s)) in
  let len_USERS := Z.of_nat (length (USERS s)) in
  let id :=
    match user_id with
    | None => len_USERS
    | Some k => if k =? 0 then len_USERS else k
    end in
  ({| heap := <[self := mkUser username user_key id inbox]> (heap s);
      USERS := dict_set id self (USERS s);
      PADDING_DIGITS := PADDING_DIGITS s |}, self).

Definition create_user (username : cadena) (user_key : UserKey) (s : estado)
  : estado * nat :=
  User_init username user_key None None s.

Definition get_all_keys (k : UserKey) : Z * Z * Z :=
  (fst (public_key k), snd (public_key k), snd (private_key k)).

Definition check_inbox (self : nat) (s : estado)
  : resultado (option (list (cadena * cadena * cadena))) :=
  match heap s !! self with
  | Some u => criptochat.check_inbox (vista s) u
  | None => Raise TypeError
  end.

(** [send_message]; [hoy] is the date that [datetime.date.today()] gives.
    The [finally: return None] ends every exception of the [try]. *)
Definition send_message (shipper_user receiver_user : nat) (message hoy : cadena)
  : Ms unit :=
  fun s t i =>
    match heap s !! shipper_user, heap s !! receiver_user with
    | Some shipper, Some receiver =>
        let '(n, e) := public_key (user_key receiver) in
        match cifrar_cadena_rsa message n e (PADDING_DIGITS s) t i with
        | (Ok encrypted_message, j) =>
            let anterior :=
              match inbox receiver with
              | None => []
              | Some l => l
              end in
            (Ok tt,
             guardar receiver_user
               (con_inbox receiver
                  (Some (anterior ++ [(id shipper, hoy, Some encrypted_message)]))) s,
             j)
        | (Raise _, j) => (Ok tt, s, j)
        | (Diverge, j) => (Diverge, s, j)
        end
    | _, _ => (Raise TypeError, s, i)
    end.

(** [catch(func, lambda message: None, *args)]: the value, or [None] on any
    exception. *)
Definition catch {A : Type} (cuerpo : resultado A) : resultado (option A) :=
  match cuerpo with
  | Ok a => Ok (Some a)
  | Raise _ => Ok None
  | Diverge => Diverge
  end.

(** The comprehension that builds [temp_inbox]: every message decrypted to
    its text, or [None]. *)
Fixpoint descifrar_todo (n d digitos : Z) (l : list contenedor)
  : resultado (list (Z * cadena * option cadena)) :=
  match l with
  | [] => Ok []
  | (a, b, m) :: r =>
      texto <-? match m with
                | Some clist => catch (descifrar_cadena_rsa clist n d digitos)
                | None => Ok None
                end ;;
      resto <-? descifrar_todo n d digitos r ;;
      Ok ((a, b, texto) :: resto)
  end.

(** The loop [for container in temp_inbox] of [change_inbox_key] and of
    [change_inbox_padding]: [capturadas] tells the exceptions its [except]
    clauses name.  Each container goes to the new inbox at once, so an
    exception that no clause names leaves the inbox with the containers
    done so far. *)
Fixpoint cifrar_todo (capturadas : excepcion -> bool) (n e digitos : Z)
    (temp_inbox : list (Z * cadena * option cadena)) (nuevo : list contenedor)
    (t : cinta) (i : nat) : resultado unit * list contenedor * nat :=
  match temp_inbox with
  | [] => (Ok tt, nuevo, i)
  | (a, b, None) :: r =>
      cifrar_todo capturadas n e digitos r (nuevo ++ [(a, b, None)]) t i
  | (a, b, Some texto) :: r =>
      match cifrar_cadena_rsa texto n e digitos t i with
      | (Ok clist, j) =>
          cifrar_todo capturadas n e digitos r (nuevo ++ [(a, b, Some clist)]) t j
      | (Raise ex, j) =>
          if capturadas ex
          then cifrar_todo capturadas n e digitos r (nuevo ++ [(a, b, None)]) t j
          else (Raise ex, nuevo, j)
      | (Diverge, j) => (Diverge, nuevo, j)
      end
  end.

Definition solo_asercion (ex : excepcion) : bool := excepcion_eqb AssertionError ex.

Definition valor_o_asercion (ex : excepcion) : bool :=
  excepcion_eqb ValueError ex || excepcion_eqb AssertionError ex.

(** [USERS[k] = self] *)
Definition registrar (k : Z) (self : nat) (s : estado) : estado :=
  {| heap := heap s; USERS := dict_set k self (USERS s);
     PADDING_DIGITS := PADDING_DIGITS s |}.

Definition change_inbox_key (self : nat) (prev_n prev_d new_n new_e : Z) : Ms unit :=
  fun s t i =>
    match heap s !! self with
    | None => (Raise TypeError, s, i)
    | Some u =>
        match inbox u with
        | None | Some [] => (Ok tt, s, i)
        | Some l =>
            match descifrar_todo prev_n prev_d (PADDING_DIGITS s) l with
            | Ok temp_inbox =>
                let '(r, nuevo, j) :=
                  cifrar_todo solo_asercion new_n new_e (PADDING_DIGITS s)
                    temp_inbox [] t i in
                (r, guardar self (con_inbox u (Some nuevo)) s, j)
            | Raise ex => (Raise ex, s, i)
            | Diverge => (Diverge, s, i)
            end
        end
    end.

Definition change_inbox_padding (self : nat) (padding_digits : Z) : Ms unit :=
  fun s t i =>
    match heap s !! self with
    | None => (Raise TypeError, s, i)
    | Some u =>
        match inbox u with
        | None | Some [] => (Ok tt, s, i)
        | Some l =>
            let '(n, e, d) := get_all_keys (user_key u) in
            match descifrar_todo n d (PADDING_DIGITS s) l with
            | Ok temp_inbox =>
                let '(r, nuevo, j) :=
                  cifrar_todo valor_o_asercion n e padding_digits temp_inbox [] t i in
                let s1 := guardar self (con_inbox u (Some nuevo)) s in
                match r with
                | Ok _ => (Ok tt, registrar (id u) self s1, j)
                | _ => (r, s1, j)
                end
            | Raise ex => (Raise ex, s, i)
            | Diverge => (Diverge, s, i)
            end
        end
    end.



End objetos.

(** ** Vocabulary of the properties *)

Import modular rsa criptochat.

(** The decimal digit count of an integer: the length of its decimal
    representation. *)
Definition cifras (v : Z) : Z := Z.of_nat (String.length (str v)).

(** A prime of the interval, as [generar_numeros_primos] promises them. *)
Definition primo_en (min_primo max_primo p : Z) : Prop :=
  Z.prime p /\ min_primo <= p < max_primo.

(** A computation settles: from some fuel on it gives one and the same
    result, which is not [Diverge]. *)
Definition termina {A : Type} (F : nat -> resultado A) : Prop :=
  exists f0 r, r <> Diverge /\ forall f, (f0 <= f)%nat -> F f = r.

Fixpoint factorial (k : nat) : Z :=
  match k with
  | O => 1
  | S k' => Z.of_nat (S k') * factorial k'
  end.

(** A bound above every element of the list. *)
Definition cota_superior (out : list Z) : Z := fold_right Z.max 0 out + 1.

(** A tape and a small directory of users for the examples. *)
Definition cinta_ejemplo : cinta := fun i => Z.of_nat i * 7919 + 13.

Definition clave_ejemplo : UserKey := nueva_clave 10000049000057 65537 1664409638897.

Definition ana : User :=
  {| username := literal "ana"; user_key := clave_ejemplo; id := 0; inbox := None |}.

Definition mensaje_roto : list Z := [1708974484760; 1].

Definition blas : User :=
  {| username := literal "blas"; user_key := clave_ejemplo; id := 1;
     inbox := Some [(0, literal "03/11/2026", Some mensaje_roto)] |}.

Definition globales_ejemplo : globales :=
  {| PADDING_DIGITS := 10; USERS := <[1 := blas]> (<[0 := ana]> ∅) |}.

(** An RSA keypair: the modulus is a product of two distinct primes and the
    exponents are inverse to each other modulo [(p - 1) * (q - 1)]. *)
Definition clave_rsa (n e d : Z) : Prop :=
  exists p q, Z.prime p /\ Z.prime q /\ p <> q /\ n = p * q
              /\ 0 <= e /\ 0 <= d /\ (e * d) mod ((p - 1) * (q - 1)) = 1.

(** A code point that [cifrar_rsa] accepts under modulus [n] and [k]
    padding digits, and that [chr] gives back. *)
Definition cabe (n k c : Z) : Prop :=
  1 <= c < 1114112 /\ cifras c + k < cifras n.


(** What [check_inbox] makes of one container. *)
Definition entrada (g : globales) (self : User) (c : contenedor)
  : resultado (cadena * cadena * cadena) :=
  let '(username_id, date, message) := c in
  user <-? find_user g username_id ;;
  match message with
  | None => Ok (username user, date, MENSAJE_CORRUPTO)
  | Some clist =>
      let '(n, d) := private_key (user_key self) in
      capturar_r ValueError
        (s <-? descifrar_cadena_rsa clist n d (PADDING_DIGITS g) ;;
         Ok (username user, date, s))
        (Ok (username user, date, MENSAJE_CORRUPTO))
  end.

(** The text that the key and padding changes recover from a message
    before they encrypt it again: [None] when it cannot be decrypted. *)
Definition texto_de (n d digitos : Z) (m : option (list Z)) : option cadena :=
  match m with
  | Some clist =>
      match descifrar_cadena_rsa clist n d digitos with
      | Ok s => Some s
      | _ => None
      end
  | None => None
  end.

(** Two users under a nine-digit modulus, [10007 * 10009], in a state with
    one padding digit. *)
Definition clave_nueve : UserKey := nueva_clave 100160063 65537 35910881.

Definition ana_nueve : User :=
  {| username := literal "ana"; user_key := clave_nueve; id := 0; inbox := None |}.

Definition blas_nueve : User :=
  {| username := literal "blas"; user_key := clave_nueve; id := 1; inbox := None |}.

Definition estado_ejemplo : objetos.estado :=
  {| objetos.heap := <[1%nat := blas_nueve]> (<[0%nat := ana_nueve]> ∅);
     objetos.USERS := [(0, 0%nat); (1, 1%nat)];
     objetos.PADDING_DIGITS := 1 |}.

(** The state of the example once ana has sent ["Hola"] to blas, blas as
    that state has it, and a second nine-digit keypair,
    [10037 * 10039]. *)
Definition estado_con_mensaje : objetos.estado :=
  snd (fst (objetos.send_message 0%nat 1%nat (literal "Hola") (literal "03/11/2026")
              estado_ejemplo cinta_ejemplo 0%nat)).

Definition blas_con_mensaje : User :=
  match objetos.heap estado_con_mensaje !! 1%nat with
  | Some u => u
  | None => blas_nueve
  end.


(** * Properties *)

(** ** Decimal digits *)


Lemma div10_cota (f : nat) (m : Z) :
  10 <= m < 2 ^ Z.of_nat (S f) -> 1 <= m / 10 < 2 ^ Z.of_nat f.
Proof.
  intros [H10 Hm].
  rewrite Nat2Z.inj_succ, Z.pow_succ_r in Hm by lia.
  split.
  - apply Z.div_le_lower_bound; lia.
  - apply Z.div_lt_upper_bound; lia.
Qed.

Lemma pow10_succ (l : Z) : 0 <= l -> 10 ^ (l + 1) = 10 * 10 ^ l.
Proof. intros Hl. rewrite Z.pow_add_r by lia. lia. Qed.

Lemma piso_log10_cotas (f : nat) :
  forall m, 1 <= m < 2 ^ Z.of_nat f ->
    0 <= piso_log10 f m /\ 10 ^ piso_log10 f m <= m < 10 ^ (piso_log10 f m + 1).
Proof.
  induction f as [|f IH]; intros m Hm.
  - simpl in Hm. lia.
  - cbn [piso_log10]. destruct (Z.ltb_spec m 10) as [Hlt|Hge].
    + simpl. lia.
    + destruct (IH (m / 10)) as (H0 & Hlo & Hhi); [apply div10_cota; lia|].
      set (l := piso_log10 f (m / 10)) in *.
      replace (1 + l) with (l + 1) by lia.
      rewrite (pow10_succ (l + 1)), (pow10_succ l) by lia.
      rewrite pow10_succ in Hhi by lia.
      pose proof (Z.div_mod m 10 ltac:(lia)) as Hdm.
      pose proof (Z.mod_pos_bound m 10 ltac:(lia)) as Hmod.
      lia.
Qed.

Lemma log2_cota (m : Z) : 0 <= m -> m < 2 ^ Z.of_nat (S (Z.to_nat (Z.log2 m))).
Proof.
  intros Hm. rewrite Nat2Z.inj_succ, Z2Nat.id by apply Z.log2_nonneg.
  destruct (Z.eq_dec m 0) as [->|Hne]; [reflexivity|].
  apply Z.log2_spec; lia.
Qed.

(** [int(log10(m))] is the floor of the logarithm. *)
Lemma int_log10_cotas (m : Z) :
  1 <= m -> exists l, int_log10 m = Ok l /\ 0 <= l /\ 10 ^ l <= m < 10 ^ (l + 1).
Proof.
  intros Hm. unfold int_log10.
  destruct (Z.leb_spec m 0); [lia|].
  eexists; split; [reflexivity|].
  apply piso_log10_cotas. split; [lia|]. apply log2_cota; lia.
Qed.


Lemma potencias_unicas (a b m : Z) :
  0 <= a -> 0 <= b -> 10 ^ a <= m < 10 ^ (a + 1) -> 10 ^ b <= m < 10 ^ (b + 1) -> a = b.
Proof.
  intros Ha Hb H1 H2.
  destruct (Z.lt_trichotomy a b) as [Hlt|[Heq|Hgt]]; [|exact Heq|].
  - assert (10 ^ (a + 1) <= 10 ^ b) by (apply Z.pow_le_mono_r; lia). lia.
  - assert (10 ^ (b + 1) <= 10 ^ a) by (apply Z.pow_le_mono_r; lia). lia.
Qed.

Lemma int_log10_unico (m l : Z) :
  0 <= l -> 10 ^ l <= m < 10 ^ (l + 1) -> int_log10 m = Ok l.
Proof.
  intros Hl Hm.
  assert (1 <= m) by (pose proof (Z.pow_pos_nonneg 10 l); lia).
  destruct (int_log10_cotas m) as (l' & E & Hl' & Hm'); [lia|].
  rewrite E. f_equal. eapply potencias_unicas; eauto.
Qed.

Lemma length_str_aux (f : nat) :
  forall m acc, 0 <= m < 2 ^ Z.of_nat (S f) ->
    String.length (str_aux (S f) m acc)
    = (Z.to_nat (piso_log10 (S f) m) + 1 + String.length acc)%nat.
Proof.
  induction f as [|f IH]; intros m acc Hm.
  - cbn [str_aux piso_log10]. destruct (Z.ltb_spec m 10); [reflexivity|].
    simpl in Hm. lia.
  - cbn [str_aux piso_log10] in *. destruct (Z.ltb_spec m 10) as [Hlt|Hge].
    + reflexivity.
    + pose proof (div10_cota (S f) m ltac:(lia)) as Hq.
      rewrite IH by lia. cbn [String.length].
      pose proof (piso_log10_cotas (S f) (m / 10) Hq) as (H0 & _).
      cbn [piso_log10] in H0.
      rewrite Z2Nat.inj_add by lia. simpl (Z.to_nat 1). lia.
Qed.

(** The digit count is the one the code computes from the logarithm. *)
Lemma cifras_int_log10 (m : Z) : 1 <= m -> int_log10 m = Ok (cifras m - 1).
Proof.
  intros Hm. unfold cifras, str, int_log10.
  destruct (Z.ltb_spec m 0); [lia|]. destruct (Z.leb_spec m 0); [lia|].
  rewrite length_str_aux by (split; [lia|apply log2_cota; lia]).
  f_equal.
  pose proof (piso_log10_cotas (S (Z.to_nat (Z.log2 m))) m
                ltac:(split; [lia|apply log2_cota; lia])) as (Hnn & _).
  simpl String.length. lia.
Qed.

Lemma cifras_cotas (m : Z) :
  1 <= m -> 1 <= cifras m /\ 10 ^ (cifras m - 1) <= m < 10 ^ cifras m.
Proof.
  intros Hm. destruct (int_log10_cotas m Hm) as (l & E & Hl & Hb).
  rewrite cifras_int_log10 in E by lia. injection E as E.
  replace (cifras m) with (l + 1) by lia.
  replace (l + 1 - 1) with l by lia. lia.
Qed.

Lemma cifras_unicas (m c : Z) : 1 <= c -> 10 ^ (c - 1) <= m < 10 ^ c -> cifras m = c.
Proof.
  intros Hc Hm.
  assert (1 <= m) by (pose proof (Z.pow_pos_nonneg 10 (c - 1)); lia).
  pose proof (int_log10_unico m (c - 1) ltac:(lia)) as E.
  replace (c - 1 + 1) with c in E by lia. specialize (E Hm).
  rewrite cifras_int_log10 in E by lia. injection E as E. lia.
Qed.

Lemma valor_digito_digito (d : Z) : 0 <= d <= 9 -> valor_digito (digito d) = Some d.
Proof.
  intros Hd.
  assert (d = 0 \/ d = 1 \/ d = 2 \/ d = 3 \/ d = 4 \/ d = 5 \/ d = 6 \/ d = 7
          \/ d = 8 \/ d = 9) as Hcases by lia.
  repeat (destruct Hcases as [->|Hcases]; [reflexivity|]).
  subst d. reflexivity.
Qed.

Lemma append_cons (c : ascii) (a b : string) :
  append (String c a) b = String c (append a b).
Proof. reflexivity. Qed.

Lemma append_vacia (b : string) : append EmptyString b = b.
Proof. reflexivity. Qed.

Lemma str_aux_append (f : nat) :
  forall m acc r, append (str_aux f m acc) r = str_aux f m (append acc r).
Proof.
  induction f as [|f IH]; intros m acc r; cbn [str_aux].
  - reflexivity.
  - destruct (m <? 10); [reflexivity|]. now rewrite IH, append_cons.
Qed.

Lemma int_aux_str_aux (f : nat) :
  forall m acc, 0 <= m < 2 ^ Z.of_nat (S f) ->
    int_aux 0 (str_aux (S f) m acc) = int_aux m acc.
Proof.
  induction f as [|f IH]; intros m acc Hm.
  - cbn [str_aux]. assert (m < 10) as Hlt by (simpl in Hm; lia).
    destruct (Z.ltb_spec m 10); [|lia].
    cbn [int_aux]. rewrite Z.mod_small by lia.
    rewrite valor_digito_digito by lia. f_equal.
  - cbn [str_aux] in *. destruct (Z.ltb_spec m 10) as [Hlt|Hge].
    + cbn [int_aux]. rewrite Z.mod_small by lia.
      rewrite valor_digito_digito by lia. f_equal.
    + pose proof (div10_cota (S f) m ltac:(lia)) as Hq.
      rewrite IH by lia. cbn [int_aux].
      pose proof (Z.mod_pos_bound m 10 ltac:(lia)) as Hmod.
      rewrite valor_digito_digito by lia. f_equal.
      pose proof (Z.div_mod m 10 ltac:(lia)). lia.
Qed.

(** Reading back [str(m)] followed by more digits: the digits of [m] come
    first. *)
Lemma int_str_append (m : Z) (r : string) :
  0 <= m -> int (append (str m) r) = int_aux m r.
Proof.
  intros Hm. unfold str. destruct (Z.ltb_spec m 0); [lia|].
  rewrite str_aux_append, append_vacia.
  rewrite <- (int_aux_str_aux (Z.to_nat (Z.log2 m)) m r)
    by (split; [lia|apply log2_cota; lia]).
  unfold int.
  pose proof (length_str_aux (Z.to_nat (Z.log2 m)) m r
                ltac:(split; [lia|apply log2_cota; lia])) as Hlen.
  destruct (str_aux _ m r); [simpl in Hlen; lia|reflexivity].
Qed.

Lemma str_digito (d : Z) : 0 <= d <= 9 -> str d = String (digito d) EmptyString.
Proof.
  intros Hd.
  assert (d = 0 \/ d = 1 \/ d = 2 \/ d = 3 \/ d = 4 \/ d = 5 \/ d = 6 \/ d = 7
          \/ d = 8 \/ d = 9) as Hcases by lia.
  repeat (destruct Hcases as [->|Hcases]; [reflexivity|]).
  subst d. reflexivity.
Qed.

(** The padding is [k] decimal digits, read from [k] cells of the tape. *)
Lemma relleno_digitos (k : nat) :
  forall t i, exists s v,
    relleno k t i = (Ok s, (i + k)%nat) /\ 0 <= v < 10 ^ Z.of_nat k
    /\ forall a, int_aux a s = Ok (a * 10 ^ Z.of_nat k + v).
Proof.
  induction k as [|k IH]; intros t i.
  - exists EmptyString, 0. cbn. rewrite Nat.add_0_r.
    repeat split; try lia. intros a. f_equal. lia.
  - destruct (IH t (S i)) as (s & v & E & Hv & Hs).
    pose proof (Z.mod_pos_bound (t i) 10 ltac:(lia)) as Hd.
    exists (append (str (0 + t i mod 10)) s), ((t i mod 10) * 10 ^ Z.of_nat k + v).
    split; [|split].
    + cbn [relleno]. unfold ligar, randint. cbn. rewrite E. unfold ret.
      f_equal. lia.
    + rewrite Nat2Z.inj_succ, Z.pow_succ_r by lia. nia.
    + intros a. rewrite str_digito, append_cons, append_vacia by lia.
      cbn [int_aux]. rewrite valor_digito_digito by lia. rewrite Hs. f_equal.
      rewrite Nat2Z.inj_succ, Z.pow_succ_r by lia. lia.
Qed.

Lemma aplicar_padding_ok (m k : Z) (t : cinta) (i : nat) :
  0 <= m -> 0 <= k ->
  exists s, aplicar_padding m k t i = (Ok (m * 10 ^ k + s), (i + Z.to_nat k)%nat)
            /\ 0 <= s < 10 ^ k.
Proof.
  intros Hm Hk. unfold aplicar_padding.
  destruct (Z.ltb_spec k 0); [lia|]. destruct (Z.ltb_spec m 0); [lia|]. cbn [orb].
  destruct (relleno_digitos (Z.to_nat k) t i) as (s & v & E & Hv & Hs).
  rewrite Z2Nat.id in * by lia.
  exists v. split; [|exact Hv].
  unfold ligar, elevar. rewrite E. rewrite int_str_append by lia. now rewrite Hs.
Qed.


(** ** The modular arithmetic library *)

Lemma sin_divisor_spec (f : nat) :
  forall n d, 0 < d ->
    (sin_divisor f n d = true <-> forall x, d <= x < d + Z.of_nat f -> ~ (x | n)).
Proof.
  induction f as [|f IH]; intros n d Hd; cbn [sin_divisor].
  - split; [intros _ x Hx; lia|reflexivity].
  - rewrite andb_true_iff, negb_true_iff, Z.eqb_neq, IH by lia.
    rewrite (Z.mod_divide n d) by lia.
    split.
    + intros [Hnd Hrest] x Hx.
      destruct (Z.eq_dec x d) as [->|Hne]; [exact Hnd|apply Hrest; lia].
    + intros Hall. split; [apply Hall; lia|intros x Hx; apply Hall; lia].
Qed.

(** The model of [es_primo] decides primality. *)
Lemma es_primo_spec (n : Z) : es_primo n = true <-> Z.prime n.
Proof.
  unfold es_primo, Z.prime.
  rewrite andb_true_iff, Z.ltb_lt, sin_divisor_spec by lia.
  split; intros [H1 Hall]; (split; [exact H1|]); intros x Hx; apply Hall; lia.
Qed.

Lemma es_primo_false (n : Z) : es_primo n = false <-> ~ Z.prime n.
Proof.
  rewrite <- es_primo_spec. destruct (es_primo n); split; congruence.
Qed.

Lemma potencia_bin_spec (base m : Z) (e : positive) :
  0 < m -> potencia_bin base e m = base ^ Zpos e mod m.
Proof.
  intros Hm. induction e as [e IH|e IH|]; cbn [potencia_bin].
  - rewrite IH, Pos2Z.inj_xI.
    replace (2 * Z.pos e + 1) with (Z.pos e + Z.pos e + 1) by lia.
    rewrite !Z.pow_add_r, Z.pow_1_r by lia.
    rewrite <- Z.mul_mod by lia. rewrite Z.mul_mod_idemp_l by lia. reflexivity.
  - rewrite IH, Pos2Z.inj_xO.
    replace (2 * Z.pos e) with (Z.pos e + Z.pos e) by lia.
    rewrite Z.pow_add_r by lia. now rewrite <- Z.mul_mod by lia.
  - now rewrite Z.pow_1_r.
Qed.

(** [potencia_mod_p] computes the power modulo a positive modulus. *)
Lemma potencia_mod_p_spec (base e m : Z) :
  0 <= e -> 0 < m -> potencia_mod_p base e m = Ok (base ^ e mod m).
Proof.
  intros He Hm. unfold potencia_mod_p.
  destruct (Z.leb_spec m 0); [lia|].
  destruct e as [|e|e]; [reflexivity| |lia].
  now rewrite potencia_bin_spec.
Qed.

Lemma potencia_mod_p_modulo (base e m : Z) :
  m <= 0 -> potencia_mod_p base e m = Raise ArithmeticError.
Proof.
  intros Hm. unfold potencia_mod_p. destruct (Z.leb_spec m 0); [reflexivity|lia].
Qed.

Section Euclides.
Variables a m : Z.

Lemma euclides_spec (f : nat) :
  forall r0 s0 r1 s1,
    0 <= r1 < r0 -> 2 * (r0 * r1) < 2 ^ Z.of_nat f ->
    (m | s0 * a - r0) -> (m | s1 * a - r1) ->
    fst (euclides f r0 s0 r1 s1) = Z.gcd r0 r1
    /\ (m | snd (euclides f r0 s0 r1 s1) * a - Z.gcd r0 r1).
Proof.
  induction f as [|f IH]; intros r0 s0 r1 s1 Hr Hf H0 H1.
  - assert (r1 = 0) as -> by (simpl in Hf; nia).
    cbn. rewrite Z.gcd_0_r, Z.abs_eq by lia. auto.
  - cbn [euclides]. destruct (Z.eqb_spec r1 0) as [->|Hne].
    + cbn. rewrite Z.gcd_0_r, Z.abs_eq by lia. auto.
    + pose proof (Z.mod_pos_bound r0 r1 ltac:(lia)) as Hmod.
      pose proof (Z.div_mod r0 r1 Hne) as Hdm.
      assert (1 <= r0 / r1) as Hq by (apply Z.div_le_lower_bound; lia).
      assert (r0 - r0 / r1 * r1 = r0 mod r1) as Er by lia.
      rewrite Er.
      assert (Z.gcd r0 r1 = Z.gcd r1 (r0 mod r1)) as Eg
          by (rewrite Z.gcd_mod_r; apply Z.gcd_comm).
      rewrite Eg. apply IH.
      * lia.
      * rewrite Nat2Z.inj_succ, Z.pow_succ_r in Hf by lia. nia.
      * exact H1.
      * replace ((s0 - r0 / r1 * s1) * a - r0 mod r1)
          with ((s0 * a - r0) - (r0 / r1) * (s1 * a - r1)) by lia.
        apply Z.divide_sub_r; [exact H0|now apply Z.divide_mul_r].
Qed.
End Euclides.

Lemma cuadrado_bajo_potencia (m : Z) :
  0 < m -> 2 * (m * m) < 2 ^ Z.of_nat (S (S (S (Z.to_nat (2 * Z.log2 m))))).
Proof.
  intros Hm. pose proof (Z.log2_nonneg m) as Hl.
  destruct (Z.log2_spec m Hm) as [_ Hhi].
  rewrite !Nat2Z.inj_succ, Z2Nat.id by lia.
  rewrite !Z.pow_succ_r by lia.
  replace (2 * Z.log2 m) with (Z.log2 m + Z.log2 m) by lia.
  rewrite Z.pow_add_r by lia.
  rewrite Z.pow_succ_r in Hhi by lia. nia.
Qed.

(** [inversa_mod_p] returns the inverse in [[0, m)] when [gcd(a, m) = 1]
    and raises otherwise. *)
Lemma inversa_mod_p_spec (a m : Z) :
  0 < m ->
  (Z.gcd a m = 1 ->
     exists x, inversa_mod_p a m = Ok x /\ 0 <= x < m /\ (a * x) mod m = 1 mod m)
  /\ (Z.gcd a m <> 1 -> inversa_mod_p a m = Raise DomainError).
Proof.
  intros Hm. unfold inversa_mod_p. destruct (Z.leb_spec m 0); [lia|].
  pose proof (Z.mod_pos_bound a m Hm) as Hr.
  destruct (euclides_spec a m (S (S (S (Z.to_nat (2 * Z.log2 m))))) m 0 (a mod m) 1)
    as [Eg Hx].
  - lia.
  - pose proof (cuadrado_bajo_potencia m Hm). nia.
  - exists (-1). lia.
  - exists (a / m). pose proof (Z.div_mod a m ltac:(lia)). lia.
  - destruct (euclides _ m 0 (a mod m) 1) as [g x]. cbn [fst snd] in *.
    rewrite Z.gcd_mod_r, Z.gcd_comm in Eg, Hx. subst g.
    split.
    + intros E1. rewrite E1 in *. cbn.
      exists (x mod m). split; [reflexivity|].
      split; [apply Z.mod_pos_bound; lia|].
      rewrite Z.mul_mod_idemp_r by lia.
      destruct Hx as [k Hk].
      replace (a * x) with (1 + k * m) by lia.
      now rewrite Z.mod_add by lia.
    + intros Hne. destruct (Z.eqb_spec (Z.gcd a m) 1); [contradiction|reflexivity].
Qed.

Lemma coprimos_spec (a b : Z) : coprimos a b = true <-> Z.gcd a b = 1.
Proof. unfold coprimos. apply Z.eqb_eq. Qed.

Lemma buscar_factor_primero (f : nat) :
  forall n d d', 0 < d <= d' -> (Z.to_nat (d' - d) < f)%nat ->
    (forall x, d <= x < d' -> ~ (x | n)) -> (d' | n) ->
    buscar_factor f n d = d'.
Proof.
  induction f as [|f IH]; intros n d d' Hd Hf Hnone Hdiv; [lia|].
  cbn [buscar_factor].
  destruct (Z.eqb_spec (n mod d) 0) as [E|E].
  - apply Z.mod_divide in E; [|lia].
    destruct (Z.eq_dec d d') as [->|Hne]; [reflexivity|].
    exfalso. apply (Hnone d); [lia|exact E].
  - destruct (Z.eq_dec d d') as [->|Hne].
    + exfalso. apply E. apply Z.mod_divide; [lia|exact Hdiv].
    + apply IH; [lia|lia| |exact Hdiv]. intros x Hx. apply Hnone. lia.
Qed.

Lemma sin_divisor_pequeno (p q x : Z) :
  Z.prime p -> Z.prime q -> 1 < x < p -> p < q -> ~ (x | p * q).
Proof.
  intros Hp Hq Hx Hpq Hdiv.
  assert (Z.gcd x p = 1) as Hcop.
  { rewrite Z.gcd_comm. apply Z.coprime_prime_small; [exact Hp|lia]. }
  apply Z.gauss in Hdiv; [|exact Hcop].
  destruct Hq as [_ Hq]. apply (Hq x); [lia|exact Hdiv].
Qed.

Lemma menor_factor_producto (p q : Z) :
  Z.prime p -> Z.prime q -> p < q -> menor_factor (p * q) = p.
Proof.
  intros Hp Hq Hlt. pose proof (Z.prime_ge_2 p Hp) as Hp2.
  unfold menor_factor. apply buscar_factor_primero.
  - lia.
  - assert (p <= Z.sqrt (p * q)) by (apply Z.sqrt_le_square; nia). lia.
  - intros x Hx. apply sin_divisor_pequeno; auto; lia.
  - apply Z.divide_factor_l.
Qed.

(** On a product of two distinct primes [euler] is [(p - 1) * (q - 1)]. *)
Lemma euler_producto (p q : Z) :
  Z.prime p -> Z.prime q -> p <> q -> euler (p * q) = (p - 1) * (q - 1).
Proof.
  intros Hp Hq Hne.
  pose proof (Z.prime_ge_2 p Hp). pose proof (Z.prime_ge_2 q Hq).
  unfold euler. destruct (Z.lt_total p q) as [Hlt|[Heq|Hgt]]; [|contradiction|].
  - rewrite menor_factor_producto by assumption.
    rewrite (Z.mul_comm p q), Z.div_mul by lia. reflexivity.
  - rewrite (Z.mul_comm p q), menor_factor_producto by assumption.
    rewrite (Z.mul_comm q p), Z.div_mul by lia. lia.
Qed.

(** ** Why RSA decrypts *)

Lemma fermat_exponente (p x k : Z) :
  Z.prime p -> 0 <= k -> x ^ (1 + k * (p - 1)) mod p = x mod p.
Proof.
  intros Hp Hk. pose proof (Z.prime_ge_2 p Hp) as Hp2.
  rewrite Z.pow_add_r, Z.pow_1_r by nia.
  destruct (Z.eq_dec (x mod p) 0) as [E0|Hnz].
  - rewrite Z.mul_mod, E0 by lia. now rewrite Z.mul_0_l, Z.mod_0_l by lia.
  - rewrite (Z.mul_comm k), Z.pow_mul_r by lia.
    rewrite Z.mul_mod by lia.
    rewrite <- (Z.mod_pow_l (x ^ (p - 1))).
    rewrite Z.fermat_nz by assumption.
    rewrite Z.pow_1_l by lia.
    rewrite (Z.mod_small 1) by lia.
    rewrite Z.mul_1_r. apply Z.mod_mod. lia.
Qed.

Lemma divide_producto_coprimos (p q a : Z) :
  Z.gcd p q = 1 -> (p | a) -> (q | a) -> (p * q | a).
Proof.
  intros Hcop [k ->] Hq.
  rewrite Z.mul_comm in Hq. apply Z.gauss in Hq; [|now rewrite Z.gcd_comm].
  destruct Hq as [j ->]. exists j. lia.
Qed.

Lemma primos_distintos_coprimos (p q : Z) :
  Z.prime p -> Z.prime q -> p <> q -> Z.gcd p q = 1.
Proof.
  intros Hp Hq Hne. apply Z.coprime_prime_l; [exact Hp|].
  intros Hdiv. apply Z.divide_prime_prime in Hdiv; auto.
Qed.

Lemma congruencia_divide (p a b : Z) : 0 < p -> a mod p = b mod p -> (p | a - b).
Proof.
  intros Hp E. apply Z.mod_divide; [lia|].
  rewrite Zminus_mod, E, Z.sub_diag. apply Z.mod_0_l. lia.
Qed.

(** Raising to [e] and then to [d] modulo [p * q] gives the base back when
    [e * d = 1] modulo [(p - 1) * (q - 1)]. *)
Theorem rsa_correcto (p q e d x : Z) :
  Z.prime p -> Z.prime q -> p <> q ->
  0 <= e -> 0 <= d -> (e * d) mod ((p - 1) * (q - 1)) = 1 ->
  0 <= x < p * q ->
  (x ^ e mod (p * q)) ^ d mod (p * q) = x.
Proof.
  intros Hp Hq Hne He Hd Hed Hx.
  pose proof (Z.prime_ge_2 p Hp) as Hp2. pose proof (Z.prime_ge_2 q Hq) as Hq2.
  set (phi := (p - 1) * (q - 1)) in *.
  assert (0 < phi) as Hphi by (unfold phi; nia).
  pose proof (Z.div_mod (e * d) phi ltac:(lia)) as Hdm. rewrite Hed in Hdm.
  assert (0 <= e * d / phi) as Ht by (apply Z.div_pos; nia).
  set (t := e * d / phi) in *.
  rewrite Z.mod_pow_l, <- Z.pow_mul_r by lia.
  rewrite <- (Z.mod_small x (p * q)) at 2 by lia.
  assert (p * q | x ^ (e * d) - x) as Hdiv.
  { apply divide_producto_coprimos.
    - now apply primos_distintos_coprimos.
    - apply congruencia_divide; [lia|].
      replace (e * d) with (1 + (t * (q - 1)) * (p - 1)) by (unfold phi in Hdm; lia).
      apply fermat_exponente; [exact Hp|nia].
    - apply congruencia_divide; [lia|].
      replace (e * d) with (1 + (t * (p - 1)) * (q - 1)) by (unfold phi in Hdm; lia).
      apply fermat_exponente; [exact Hq|nia]. }
  destruct Hdiv as [k Hk].
  replace (x ^ (e * d)) with (x + k * (p * q)) by lia.
  apply Z.mod_add. nia.
Qed.

(** ** There is always a next prime *)


Lemma factorial_positivo (k : nat) : 1 <= factorial k.
Proof. induction k as [|k IH]; cbn [factorial]; nia. Qed.

Lemma divide_factorial (k : nat) (x : Z) : 1 <= x <= Z.of_nat k -> (x | factorial k).
Proof.
  induction k as [|k IH]; intros Hx; [lia|]. cbn [factorial].
  destruct (Z.eq_dec x (Z.of_nat (S k))) as [->|Hne].
  - apply Z.divide_factor_l.
  - apply Z.divide_mul_r, IH. lia.
Qed.

Lemma primo_dec (n : Z) : {Z.prime n} + {~ Z.prime n}.
Proof.
  destruct (es_primo n) eqn:E.
  - left. now apply es_primo_spec.
  - right. now apply es_primo_false.
Qed.

Lemma divisor_propio (n : Z) :
  1 < n -> ~ Z.prime n -> exists x, 1 < x < n /\ (x | n).
Proof.
  intros Hn Hnp. apply es_primo_false in Hnp. unfold es_primo in Hnp.
  destruct (Z.ltb_spec 1 n); [|lia]. cbn [andb] in Hnp.
  assert (forall f d, 0 < d -> sin_divisor f n d = false ->
            exists x, d <= x < d + Z.of_nat f /\ (x | n)) as Hbusca.
  { induction f as [|f IH]; intros d Hd Hs; cbn [sin_divisor] in Hs; [discriminate|].
    destruct (Z.eqb_spec (n mod d) 0) as [E|E].
    - exists d. split; [lia|]. apply Z.mod_divide; [lia|exact E].
    - cbn in Hs. destruct (IH (d + 1) ltac:(lia) Hs) as (x & Hx & Hdiv).
      exists x. split; [lia|exact Hdiv]. }
  destruct (Hbusca _ 2 ltac:(lia) Hnp) as (x & Hx & Hdiv).
  exists x. split; [lia|exact Hdiv].
Qed.

Lemma divisor_primo (k : nat) :
  forall n, 1 < n <= Z.of_nat k -> exists p, Z.prime p /\ (p | n).
Proof.
  induction k as [|k IH]; intros n Hn; [lia|].
  destruct (primo_dec n) as [Hp|Hnp].
  - exists n. split; [exact Hp|apply Z.divide_refl].
  - destruct (divisor_propio n ltac:(lia) Hnp) as (x & Hx & Hdiv).
    destruct (IH x ltac:(lia)) as (p & Hp & Hpx).
    exists p. split; [exact Hp|]. eapply Z.divide_trans; eauto.
Qed.

(** Euclid: above every integer there is a prime. *)
Lemma primo_mayor (n : Z) : exists p, Z.prime p /\ n < p.
Proof.
  set (k := Z.to_nat n).
  pose proof (factorial_positivo k) as Hf.
  destruct (divisor_primo (Z.to_nat (factorial k + 1)) (factorial k + 1) ltac:(lia))
    as (p & Hp & Hdiv).
  exists p. split; [exact Hp|].
  destruct (Z.lt_ge_cases n p) as [Hlt|Hge]; [exact Hlt|exfalso].
  pose proof (Z.prime_ge_2 p Hp) as Hp2.
  assert (p | factorial k) as Hpf by (apply divide_factorial; lia).
  assert (p | 1) as H1.
  { apply (Z.divide_add_cancel_r p (factorial k) 1); assumption. }
  apply Z.divide_1_r_nonneg in H1; lia.
Qed.

(** ** The prime generator *)

Lemma esta_en_In (p : Z) (l : list Z) : esta_en p l = true <-> In p l.
Proof.
  unfold esta_en. rewrite existsb_exists. split.
  - intros (x & Hin & E). apply Z.eqb_eq in E. now subst.
  - intros Hin. exists p. split; [exact Hin|apply Z.eqb_refl].
Qed.

Lemma esta_en_no_In (p : Z) (l : list Z) : esta_en p l = false <-> ~ In p l.
Proof.
  rewrite <- esta_en_In. destruct (esta_en p l); split; congruence.
Qed.

Lemma subir_ok (f : nat) :
  forall n p, subir f n = Ok p -> Z.prime p /\ n <= p.
Proof.
  induction f as [|f IH]; intros n p; cbn [subir];
    destruct (es_primo n) eqn:E; intros H; try discriminate.
  - injection H as <-. apply es_primo_spec in E. split; [exact E|lia].
  - injection H as <-. apply es_primo_spec in E. split; [exact E|lia].
  - apply IH in H. split; [tauto|lia].
Qed.

Lemma subir_sin_error (f : nat) : forall n e, subir f n <> Raise e.
Proof.
  induction f as [|f IH]; intros n e; cbn [subir];
    destruct (es_primo n); try discriminate. apply IH.
Qed.

Lemma bajar_ok (f : nat) :
  forall n p, bajar f n = Ok p -> Z.prime p /\ p <= n.
Proof.
  induction f as [|f IH]; intros n p; cbn [bajar];
    destruct (es_primo n) eqn:E; intros H; try discriminate.
  - injection H as <-. apply es_primo_spec in E. split; [exact E|lia].
  - injection H as <-. apply es_primo_spec in E. split; [exact E|lia].
  - apply IH in H. split; [tauto|lia].
Qed.

Lemma bajar_sin_error (f : nat) : forall n e, bajar f n <> Raise e.
Proof.
  induction f as [|f IH]; intros n e; cbn [bajar];
    destruct (es_primo n); try discriminate. apply IH.
Qed.

Lemma siguiente_primo_ok (f : nat) (n p : Z) :
  siguiente_primo f n = Ok p -> Z.prime p /\ n < p.
Proof. intros H. apply subir_ok in H. split; [tauto|lia]. Qed.

Lemma anterior_primo_ok (f : nat) (n p : Z) :
  anterior_primo f n = Ok (Entero p) -> Z.prime p /\ p < n.
Proof.
  unfold anterior_primo. destruct (2 <? n); [|discriminate].
  destruct (bajar f (n - 1)) eqn:E; cbn; intros H; try discriminate.
  injection H as <-. apply bajar_ok in E. split; [tauto|lia].
Qed.

Lemma anterior_primo_sin_error (f : nat) (n : Z) (e : excepcion) :
  anterior_primo f n <> Raise e.
Proof.
  unfold anterior_primo. destruct (2 <? n); [|discriminate].
  destruct (bajar f (n - 1)) eqn:E; cbn; try discriminate.
  now apply bajar_sin_error in E.
Qed.

Lemma saltar_arriba_ok (f : nat) (out : list Z) :
  forall p p', Z.prime p -> saltar_arriba f out p = Ok p' ->
    Z.prime p' /\ ~ In p' out.
Proof.
  induction f as [|f IH]; intros p p' Hp; cbn [saltar_arriba];
    destruct (esta_en p out) eqn:E; intros H; try discriminate;
    try (injection H as <-; split; [exact Hp|now apply esta_en_no_In]).
  destruct (siguiente_primo f p) as [q| |] eqn:Es; cbn in H; try discriminate.
  apply siguiente_primo_ok in Es. apply (IH q); tauto.
Qed.

Lemma saltar_arriba_sin_error (f : nat) (out : list Z) :
  forall p e, saltar_arriba f out p <> Raise e.
Proof.
  induction f as [|f IH]; intros p e; cbn [saltar_arriba];
    destruct (esta_en p out); try discriminate.
  destruct (siguiente_primo f p) as [q| |] eqn:Es; cbn; try discriminate.
  - apply IH.
  - now apply subir_sin_error in Es.
Qed.

Lemma saltar_abajo_ok (f : nat) (out : list Z) (cota : Z) :
  forall q z,
    (forall zq, q = Entero zq -> Z.prime zq /\ zq < cota) ->
    saltar_abajo f out q = Ok (Entero z) ->
    Z.prime z /\ z < cota /\ ~ In z out.
Proof.
  induction f as [|f IH]; intros q z Hq; cbn [saltar_abajo];
    destruct q as [zq|]; try discriminate;
    destruct (esta_en zq out) eqn:E; intros H; try discriminate;
    try (injection H as <-; destruct (Hq zq eq_refl);
         split; [assumption|split; [assumption|now apply esta_en_no_In]]).
  destruct (anterior_primo f zq) as [q'| |] eqn:Ea; cbn in H; try discriminate.
  apply (IH q'); [|exact H].
  intros z' ->. apply anterior_primo_ok in Ea. destruct (Hq zq eq_refl). split; [tauto|lia].
Qed.

Lemma saltar_abajo_sin_error (f : nat) (out : list Z) :
  forall q e, saltar_abajo f out q <> Raise e.
Proof.
  induction f as [|f IH]; intros q e; cbn [saltar_abajo];
    destruct q as [zq|]; try discriminate;
    destruct (esta_en zq out); try discriminate.
  destruct (anterior_primo f zq) as [q'| |] eqn:Ea; cbn; try discriminate.
  - apply IH.
  - now apply anterior_primo_sin_error in Ea.
Qed.


Lemma elegir_primo_ok (f : nat) (min_primo max_primo : Z) (out : list Z) (n z : Z) :
  elegir_primo f min_primo max_primo out n = Ok z ->
  primo_en min_primo max_primo z /\ ~ In z out.
Proof.
  unfold elegir_primo, primo_en.
  destruct (siguiente_primo f n) as [p1| |] eqn:E1; cbn [ligar_r]; try discriminate.
  apply siguiente_primo_ok in E1.
  destruct (saltar_arriba f out p1) as [p2| |] eqn:E2; cbn [ligar_r]; try discriminate.
  apply saltar_arriba_ok in E2; [|tauto].
  destruct (Z.leb_spec max_primo p2) as [Hge|Hlt].
  - destruct (anterior_primo f max_primo) as [q| |] eqn:E3; cbn [ligar_r];
      try discriminate.
    destruct (saltar_abajo f out q) as [[z'|]| |] eqn:E4; cbn [ligar_r];
      try discriminate.
    destruct (Z.ltb_spec z' min_primo); intros Hr; [discriminate|injection Hr as <-].
    apply (saltar_abajo_ok f out max_primo) in E4.
    + split; [split; [tauto|lia]|tauto].
    + intros zq ->. now apply anterior_primo_ok in E3.
  - cbn [ligar_r]. destruct (Z.ltb_spec p2 min_primo); intros Hr;
      [discriminate|injection Hr as <-].
    split; [split; [tauto|lia]|tauto].
Qed.

Lemma elegir_primo_error (f : nat) (min_primo max_primo : Z) (out : list Z)
    (n : Z) (e : excepcion) :
  elegir_primo f min_primo max_primo out n = Raise e -> e = ValueError.
Proof.
  unfold elegir_primo.
  destruct (siguiente_primo f n) as [p1| |] eqn:E1; cbn [ligar_r]; try discriminate.
  2:{ now apply subir_sin_error in E1. }
  destruct (saltar_arriba f out p1) as [p2| |] eqn:E2; cbn [ligar_r]; try discriminate.
  2:{ now apply saltar_arriba_sin_error in E2. }
  destruct (max_primo <=? p2).
  - destruct (anterior_primo f max_primo) as [q| |] eqn:E3; cbn [ligar_r];
      try discriminate.
    2:{ now apply anterior_primo_sin_error in E3. }
    destruct (saltar_abajo f out q) as [[z'|]| |] eqn:E4; cbn [ligar_r];
      try discriminate.
    + destruct (z' <? min_primo); congruence.
    + congruence.
    + now apply saltar_abajo_sin_error in E4.
  - cbn [ligar_r]. destruct (p2 <? min_primo); congruence.
Qed.

Lemma NoDup_snoc (l : list Z) (p : Z) : List.NoDup l -> ~ In p l -> List.NoDup (l ++ [p]).
Proof.
  intros Hnd Hnin. induction Hnd as [|x l Hx Hnd IH]; cbn.
  - constructor; [intros Hin; exact Hin|constructor].
  - constructor.
    + rewrite in_app_iff. cbn. intros [Hin|[->|Hin]]; [contradiction| |exact Hin].
      apply Hnin. now left.
    + apply IH. intros Hin. apply Hnin. now right.
Qed.

Lemma recorrer_ok (f : nat) (min_primo max_primo : Z) (semillas : list Z) :
  forall out l,
    List.NoDup out -> Forall (primo_en min_primo max_primo) out ->
    recorrer f min_primo max_primo semillas out = Ok l ->
    List.NoDup l /\ Forall (primo_en min_primo max_primo) l
    /\ length l = (length out + length semillas)%nat.
Proof.
  induction semillas as [|n resto IH]; intros out l Hnd Hall; cbn [recorrer].
  - intros H. injection H as <-. cbn [length]. rewrite Nat.add_0_r. auto.
  - destruct (elegir_primo f min_primo max_primo out n) as [p| |] eqn:E;
      cbn [ligar_r]; try discriminate.
    apply elegir_primo_ok in E. destruct E as [Hp Hnin]. intros H.
    apply IH in H.
    + rewrite length_app in H. cbn [length] in *.
      destruct H as (H1 & H2 & H3). split; [assumption|split; [assumption|lia]].
    + now apply NoDup_snoc.
    + apply Forall_app. split; [exact Hall|]. constructor; [exact Hp|constructor].
Qed.

Lemma recorrer_error (f : nat) (min_primo max_primo : Z) (semillas : list Z) :
  forall out e, recorrer f min_primo max_primo semillas out = Raise e -> e = ValueError.
Proof.
  induction semillas as [|n resto IH]; intros out e; cbn [recorrer]; [discriminate|].
  destruct (elegir_primo f min_primo max_primo out n) as [p| |] eqn:E;
    cbn [ligar_r]; try discriminate.
  - apply IH.
  - intros H. injection H as <-. now apply elegir_primo_error in E.
Qed.

(** The seeds: one cell of the tape each, none fails when the range is
    not empty. *)
Lemma semillas_ok (a b : Z) (l : list Z) :
  a <= b -> forall t i, exists semillas,
    comprension (fun _ => randint a b) l t i = (Ok semillas, (i + length l)%nat)
    /\ length semillas = length l.
Proof.
  intros Hab. induction l as [|x l IH]; intros t i.
  - exists []. cbn. rewrite Nat.add_0_r. auto.
  - destruct (IH t (S i)) as (s & E & Hlen).
    exists ((a + t i mod (b - a + 1)) :: s).
    cbn [comprension]. unfold ligar at 1. unfold randint at 1.
    destruct (Z.leb_spec a b); [|lia].
    unfold ligar. rewrite E. unfold ret. cbn [length]. split; [f_equal; lia|lia].
Qed.

Lemma length_rango (n : Z) : length (rango n) = Z.to_nat n.
Proof. unfold rango. now rewrite length_map, length_seq. Qed.

Lemma lista_de_salida (out : list Z) :
  lista_de (match out with
            | [p] => Uno p
            | _ => Tupla out
            end) = out.
Proof. destruct out as [|p [|q r]]; reflexivity. Qed.

Lemma generar_numeros_primos_ok (f : nat) (min_primo max_primo numero : Z)
    (t : cinta) (i j : nat) (v : primos) :
  generar_numeros_primos f min_primo max_primo numero t i = (Ok v, j) ->
  1 <= numero /\ min_primo <= max_primo
  /\ length (lista_de v) = Z.to_nat numero
  /\ List.NoDup (lista_de v)
  /\ Forall (primo_en min_primo max_primo) (lista_de v)
  /\ j = (i + Z.to_nat numero)%nat.
Proof.
  unfold generar_numeros_primos.
  destruct (Z.ltb_spec numero 1); [discriminate|].
  destruct (Z.ltb_spec max_primo min_primo); [discriminate|].
  destruct (semillas_ok (min_primo - 1) max_primo (rango numero) ltac:(lia) t i)
    as (semillas & E & Hlen).
  unfold ligar at 1. rewrite E. unfold ligar, elevar, ret.
  destruct (recorrer f min_primo max_primo semillas []) as [out| |] eqn:Er;
    try discriminate.
  intros Hv. injection Hv as <- <-. rewrite lista_de_salida.
  apply recorrer_ok in Er; [|constructor|constructor].
  destruct Er as (Hnd & Hall & Hl). cbn [length] in Hl.
  rewrite length_rango in *. repeat (split; [first [assumption|lia]|]). reflexivity.
Qed.

Lemma generar_numeros_primos_error (f : nat) (min_primo max_primo numero : Z)
    (t : cinta) (i j : nat) (e : excepcion) :
  generar_numeros_primos f min_primo max_primo numero t i = (Raise e, j) ->
  e = ValueError.
Proof.
  unfold generar_numeros_primos.
  destruct (Z.ltb_spec numero 1); [unfold lanzar; congruence|].
  destruct (Z.ltb_spec max_primo min_primo); [unfold lanzar; congruence|].
  destruct (semillas_ok (min_primo - 1) max_primo (rango numero) ltac:(lia) t i)
    as (semillas & E & Hlen).
  unfold ligar at 1. rewrite E. unfold ligar, elevar, ret.
  destruct (recorrer f min_primo max_primo semillas []) as [out| |] eqn:Er;
    try discriminate.
  intros Hv. injection Hv as <- _. now apply recorrer_error in Er.
Qed.

(** ** Termination: enough fuel settles every loop of the generator *)


Lemma termina_ext {A : Type} (F G : nat -> resultado A) :
  (forall f, F f = G f) -> termina F -> termina G.
Proof.
  intros Heq (f0 & r & Hr & HF). exists f0, r. split; [exact Hr|].
  intros f Hf. rewrite <- Heq. now apply HF.
Qed.

Lemma termina_const {A : Type} (r : resultado A) :
  r <> Diverge -> termina (fun _ => r).
Proof. intros Hr. exists 0%nat, r. auto. Qed.

Lemma termina_paso {A : Type} (H : nat -> resultado A) :
  termina H ->
  termina (fun f => match f with
                    | O => Diverge
                    | S f' => H f'
                    end).
Proof.
  intros (f0 & r & Hr & HH). exists (S f0), r. split; [exact Hr|].
  intros [|f] Hf; [lia|]. apply HH. lia.
Qed.

Lemma termina_ligar {A B : Type} (P : A -> Prop)
    (F : nat -> resultado A) (G : nat -> A -> resultado B) :
  termina F -> (forall f a, F f = Ok a -> P a) ->
  (forall a, P a -> termina (fun f => G f a)) ->
  termina (fun f => ligar_r (F f) (G f)).
Proof.
  intros (f1 & r1 & Hr1 & HF) HP HG.
  destruct r1 as [a|e|]; [| |contradiction].
  - destruct (HG a (HP f1 a (HF f1 (Nat.le_refl f1)))) as (f2 & r2 & Hr2 & HGa).
    exists (Nat.max f1 f2), r2. split; [exact Hr2|].
    intros f Hf. rewrite HF by lia. cbn. apply HGa. lia.
  - exists f1, (Raise e). split; [discriminate|].
    intros f Hf. now rewrite HF.
Qed.

Lemma subir_mas_fuel (f : nat) :
  forall n p f', subir f n = Ok p -> (f <= f')%nat -> subir f' n = Ok p.
Proof.
  induction f as [|f IH]; intros n p f' H Hf; cbn [subir] in H.
  - destruct f'; cbn [subir]; destruct (es_primo n); congruence.
  - destruct f' as [|f']; [lia|]. cbn [subir].
    destruct (es_primo n); [exact H|]. apply (IH _ _ f' H). lia.
Qed.

Lemma subir_existe (k : nat) :
  forall n p, Z.prime p -> n <= p -> (Z.to_nat (p - n) <= k)%nat ->
    exists p', subir k n = Ok p'.
Proof.
  induction k as [|k IH]; intros n p Hp Hn Hk.
  - assert (n = p) as -> by lia. apply es_primo_spec in Hp.
    cbn [subir]. rewrite Hp. eauto.
  - cbn [subir]. destruct (es_primo n) eqn:E; [eauto|].
    apply (IH (n + 1) p Hp); [|lia].
    destruct (Z.eq_dec n p) as [->|Hne]; [|lia].
    apply es_primo_spec in Hp. congruence.
Qed.

Lemma siguiente_primo_termina (n : Z) : termina (fun f => siguiente_primo f n).
Proof.
  destruct (primo_mayor n) as (p & Hp & Hlt).
  destruct (subir_existe (Z.to_nat (p - (n + 1))) (n + 1) p Hp ltac:(lia) ltac:(lia))
    as (p' & E).
  exists (Z.to_nat (p - (n + 1))), (Ok p'). split; [discriminate|].
  intros f Hf. unfold siguiente_primo. eapply subir_mas_fuel; eauto.
Qed.

Lemma bajar_mas_fuel (f : nat) :
  forall n p f', bajar f n = Ok p -> (f <= f')%nat -> bajar f' n = Ok p.
Proof.
  induction f as [|f IH]; intros n p f' H Hf; cbn [bajar] in H.
  - destruct f'; cbn [bajar]; destruct (es_primo n); congruence.
  - destruct f' as [|f']; [lia|]. cbn [bajar].
    destruct (es_primo n); [exact H|]. apply (IH _ _ f' H). lia.
Qed.

Lemma bajar_existe (k : nat) :
  forall n p, Z.prime p -> p <= n -> (Z.to_nat (n - p) <= k)%nat ->
    exists p', bajar k n = Ok p'.
Proof.
  induction k as [|k IH]; intros n p Hp Hn Hk.
  - assert (n = p) as -> by lia. apply es_primo_spec in Hp.
    cbn [bajar]. rewrite Hp. eauto.
  - cbn [bajar]. destruct (es_primo n) eqn:E; [eauto|].
    apply (IH (n - 1) p Hp); [|lia].
    destruct (Z.eq_dec n p) as [->|Hne]; [|lia].
    apply es_primo_spec in Hp. congruence.
Qed.

Lemma anterior_primo_termina (n : Z) : termina (fun f => anterior_primo f n).
Proof.
  unfold anterior_primo. destruct (Z.ltb_spec 2 n) as [Hn|Hn].
  - destruct (bajar_existe (Z.to_nat (n - 1 - 2)) (n - 1) 2 Z.prime_2
                ltac:(lia) ltac:(lia)) as (p' & E).
    exists (Z.to_nat (n - 1 - 2)), (Ok (Entero p')). split; [discriminate|].
    intros f Hf. now rewrite (bajar_mas_fuel _ _ _ f E Hf).
  - apply termina_const. discriminate.
Qed.


Lemma In_cota_superior (out : list Z) (p : Z) : In p out -> p < cota_superior out.
Proof.
  unfold cota_superior. induction out as [|x out IH]; cbn; [tauto|].
  intros [->|Hin]; [lia|]. specialize (IH Hin). lia.
Qed.

Lemma saltar_arriba_termina (out : list Z) (k : nat) :
  forall p, (Z.to_nat (cota_superior out - p) <= k)%nat ->
    termina (fun f => saltar_arriba f out p).
Proof.
  induction k as [|k IH]; intros p Hk;
    destruct (esta_en p out) eqn:E;
    try (apply (termina_ext (fun _ => Ok p));
         [intros [|f]; cbn [saltar_arriba]; now rewrite E
         |apply termina_const; discriminate]).
  - apply esta_en_In, In_cota_superior in E. lia.
  - pose proof E as Hin. apply esta_en_In, In_cota_superior in Hin.
    apply (termina_ext (fun f => match f with
                                 | O => Diverge
                                 | S f' => p' <-? siguiente_primo f' p ;;
                                           saltar_arriba f' out p'
                                 end)).
    { intros [|f]; cbn [saltar_arriba]; now rewrite E. }
    apply termina_paso.
    apply (termina_ligar (fun p' => p < p')).
    + apply siguiente_primo_termina.
    + intros f a Ha. now apply siguiente_primo_ok in Ha.
    + intros a Ha. apply IH. lia.
Qed.

Lemma saltar_abajo_termina (out : list Z) (k : nat) :
  forall q, (forall z, q = Entero z -> (Z.to_nat z <= k)%nat) ->
    termina (fun f => saltar_abajo f out q).
Proof.
  induction k as [|k IH]; intros [z|] Hk;
    try (apply (termina_ext (fun _ => Ok NE));
         [intros [|f]; reflexivity|apply termina_const; discriminate]);
    specialize (Hk z eq_refl);
    (destruct (esta_en z out) eqn:E;
     [|apply (termina_ext (fun _ => Ok (Entero z)));
       [intros [|f]; cbn [saltar_abajo]; now rewrite E
       |apply termina_const; discriminate]]);
    (apply (termina_ext (fun f => match f with
                                  | O => Diverge
                                  | S f' => p' <-? anterior_primo f' z ;;
                                            saltar_abajo f' out p'
                                  end));
     [intros [|f]; cbn [saltar_abajo]; now rewrite E|]);
    apply termina_paso.
  - apply (termina_ligar (fun q' => q' = NE)).
    + apply anterior_primo_termina.
    + intros f [z'|] Ha; [|reflexivity].
      apply anterior_primo_ok in Ha. destruct Ha as [Hp Hlt].
      apply Z.prime_ge_2 in Hp. lia.
    + intros a ->. apply (termina_ext (fun _ => Ok NE));
        [intros [|f]; reflexivity|apply termina_const; discriminate].
  - apply (termina_ligar (fun q' => forall z', q' = Entero z' -> (Z.to_nat z' <= k)%nat)).
    + apply anterior_primo_termina.
    + intros f a Ha z' ->. apply anterior_primo_ok in Ha. destruct Ha as [Hp Hlt].
      apply Z.prime_ge_2 in Hp. lia.
    + intros a Ha. now apply IH.
Qed.

Lemma elegir_primo_termina (min_primo max_primo : Z) (out : list Z) (n : Z) :
  termina (fun f => elegir_primo f min_primo max_primo out n).
Proof.
  unfold elegir_primo.
  apply (termina_ligar (fun _ => True)); [apply siguiente_primo_termina|auto|].
  intros p1 _.
  apply (termina_ligar (fun _ => True));
    [apply (saltar_arriba_termina out (Z.to_nat (cota_superior out - p1))); lia|auto|].
  intros p2 _.
  apply (termina_ligar (fun _ => True)
           (fun f => if max_primo <=? p2
                     then q <-? anterior_primo f max_primo ;; saltar_abajo f out q
                     else Ok (Entero p2))
           (fun _ p => match p with
                       | NE => Raise ValueError
                       | Entero z => if z <? min_primo then Raise ValueError else Ok z
                       end)); [|auto|].
  - destruct (max_primo <=? p2); [|apply termina_const; discriminate].
    apply (termina_ligar (fun _ => True)); [apply anterior_primo_termina|auto|].
    intros [z|] _.
    + apply (saltar_abajo_termina out (Z.to_nat z)). now intros z' [= <-].
    + apply (saltar_abajo_termina out 0). discriminate.
  - intros [z|] _; apply termina_const; [destruct (z <? min_primo)|]; discriminate.
Qed.

Lemma recorrer_termina (min_primo max_primo : Z) (semillas : list Z) :
  forall out, termina (fun f => recorrer f min_primo max_primo semillas out).
Proof.
  induction semillas as [|n resto IH]; intros out; cbn [recorrer].
  - apply termina_const. discriminate.
  - apply (termina_ligar (fun _ => True)); [apply elegir_primo_termina|auto|].
    intros p _. apply IH.
Qed.

Lemma generar_numeros_primos_termina (min_primo max_primo numero : Z)
    (t : cinta) (i : nat) :
  termina (fun f => fst (generar_numeros_primos f min_primo max_primo numero t i)).
Proof.
  unfold generar_numeros_primos.
  destruct (Z.ltb_spec numero 1); [apply termina_const; discriminate|].
  destruct (Z.ltb_spec max_primo min_primo); [apply termina_const; discriminate|].
  destruct (semillas_ok (min_primo - 1) max_primo (rango numero) ltac:(lia) t i)
    as (semillas & E & Hlen).
  destruct (recorrer_termina min_primo max_primo semillas []) as (f0 & r & Hr & HF).
  exists f0, (out <-? r ;; Ok (match out with
                                | [p] => Uno p
                                | _ => Tupla out
                                end)).
  split; [destruct r; [discriminate|discriminate|contradiction]|].
  intros f Hf. unfold ligar at 1. rewrite E. unfold ligar, elevar, ret.
  rewrite (HF f Hf). now destruct r.
Qed.

(** When every prime of the interval is already chosen, the search for one
    more ends in [ValueError]. *)
Lemma elegir_primo_agotado (min_primo max_primo : Z) (out : list Z) (n : Z) :
  (forall p, primo_en min_primo max_primo p -> In p out) ->
  exists f0, forall f, (f0 <= f)%nat ->
    elegir_primo f min_primo max_primo out n = Raise ValueError.
Proof.
  intros Htodos.
  destruct (elegir_primo_termina min_primo max_primo out n) as (f0 & r & Hr & HF).
  exists f0. intros f Hf. specialize (HF f Hf). cbn beta in HF.
  destruct (elegir_primo f min_primo max_primo out n) as [z|e|] eqn:E.
  - exfalso. apply elegir_primo_ok in E. destruct E as [Hz Hnin].
    apply Hnin, Htodos, Hz.
  - apply elegir_primo_error in E. now subst.
  - congruence.
Qed.

(** ** The key generator *)

Lemma randrange_impar (phi : Z) (t : cinta) (i j : nat) (e : Z) :
  randrange 1 phi 2 t i = (Ok e, j) -> 1 <= e < phi /\ Z.odd e = true.
Proof.
  unfold randrange. replace (phi - 1 + 2 - 1) with phi by lia.
  destruct (Z.ltb_spec 0 (phi / 2)) as [Hn|Hn]; [|discriminate].
  intros H. injection H as <- _.
  pose proof (Z.mod_pos_bound (t i) (phi / 2) Hn) as Hr.
  pose proof (Z.mul_div_le phi 2 ltac:(lia)) as Hle.
  split; [lia|]. now rewrite Z.odd_add_mul_2.
Qed.

Lemma elegir_e_ok (f : nat) (phi : Z) :
  forall t i j e, elegir_e f phi t i = (Ok e, j) ->
    1 <= e < phi /\ Z.odd e = true /\ Z.gcd phi e = 1.
Proof.
  induction f as [|f IH]; intros t i j e; cbn [elegir_e]; [discriminate|].
  unfold ligar. destruct (randrange 1 phi 2 t i) as [[e'| |] i'] eqn:Er;
    try discriminate.
  destruct (coprimos phi e') eqn:Ec.
  - unfold ret. intros H. injection H as <- _.
    apply randrange_impar in Er. apply coprimos_spec in Ec. tauto.
  - apply IH.
Qed.

(** What [generar_claves] returns, with the primes it drew. *)
Lemma generar_claves_invariante (f : nat) (min_primo max_primo : Z)
    (t : cinta) (i j : nat) (n e d : Z) :
  generar_claves f min_primo max_primo t i = (Ok (n, e, d), j) ->
  exists p q,
    primo_en min_primo max_primo p /\ primo_en min_primo max_primo q /\ p <> q
    /\ n = p * q
    /\ 1 <= e < (p - 1) * (q - 1) /\ Z.odd e = true
    /\ Z.gcd ((p - 1) * (q - 1)) e = 1
    /\ inversa_mod_p e ((p - 1) * (q - 1)) = Ok d
    /\ 0 <= d < (p - 1) * (q - 1)
    /\ (e * d) mod ((p - 1) * (q - 1)) = 1.
Proof.
  unfold generar_claves. unfold ligar at 1.
  destruct (generar_numeros_primos f min_primo max_primo 2 t i) as [[v| |] i1] eqn:Eg;
    try discriminate.
  apply generar_numeros_primos_ok in Eg.
  destruct Eg as (_ & _ & Hlen & Hnd & Hall & _).
  destruct v as [p0|[|p [|q [|x r]]]]; try discriminate. cbn [lista_de] in *.
  inversion Hall as [|? ? Hp Hall']; subst. inversion Hall' as [|? ? Hq _]; subst.
  inversion Hnd as [|? ? Hnin _]; subst.
  assert (p <> q) as Hne by (intros ->; apply Hnin; now left).
  unfold ligar at 1.
  destruct (elegir_e f ((p - 1) * (q - 1)) t i1) as [[e'| |] i2] eqn:Ee;
    try discriminate.
  apply elegir_e_ok in Ee. destruct Ee as (Hr & Hodd & Hcop).
  unfold ligar, elevar.
  destruct (inversa_mod_p e' ((p - 1) * (q - 1))) as [d'| |] eqn:Ei; try discriminate.
  unfold ret. intros H. injection H as <- <- <- _.
  destruct (inversa_mod_p_spec e' ((p - 1) * (q - 1)) ltac:(lia)) as [Hinv _].
  destruct (Hinv ltac:(now rewrite Z.gcd_comm)) as (x & Ex & Hx & Hmod).
  rewrite Ei in Ex. injection Ex as <-.
  rewrite (Z.mod_small 1) in Hmod by lia.
  exists p, q. repeat (split; [first [assumption|lia|reflexivity]|]). exact Hmod.
Qed.

(** ** Padding and the message codec *)

Lemma eliminar_padding_ok (v d : Z) :
  1 <= v -> 0 <= d < cifras v ->
  eliminar_padding v d = Ok (v / 10 ^ d) /\ 1 <= v / 10 ^ d.
Proof.
  intros Hv Hd. unfold eliminar_padding.
  destruct (Z.leb_spec 0 d); [|lia].
  rewrite cifras_int_log10 by lia. cbn [ligar_r].
  destruct (Z.ltb_spec d (cifras v - 1 + 1)); [|lia].
  split; [reflexivity|].
  destruct (cifras_cotas v Hv) as (_ & Hlo & _).
  assert (10 ^ d <= 10 ^ (cifras v - 1)) by (apply Z.pow_le_mono_r; lia).
  pose proof (Z.pow_pos_nonneg 10 d ltac:(lia) ltac:(lia)).
  apply Z.div_le_lower_bound; lia.
Qed.


(** The padded value keeps the digits of the message in front. *)
Lemma cifras_con_padding (m k s : Z) :
  1 <= m -> 0 <= k -> 0 <= s < 10 ^ k -> cifras (m * 10 ^ k + s) = cifras m + k.
Proof.
  intros Hm Hk Hs. destruct (cifras_cotas m Hm) as (Hc & Hlo & Hhi).
  apply cifras_unicas; [lia|].
  replace (cifras m + k - 1) with (cifras m - 1 + k) by lia.
  rewrite !Z.pow_add_r by lia. nia.
Qed.

Lemma division_padding (m k s : Z) :
  0 <= k -> 0 <= s < 10 ^ k -> (m * 10 ^ k + s) / 10 ^ k = m.
Proof.
  intros Hk Hs. rewrite Z.div_add_l by lia. rewrite Z.div_small by lia. lia.
Qed.

Lemma cifrar_rsa_negativo (m n e k : Z) (t : cinta) (i : nat) :
  m < 0 \/ n < 0 \/ e < 0 \/ k < 0 -> cifrar_rsa m n e k t i = (Raise ValueError, i).
Proof.
  intros H. unfold cifrar_rsa.
  destruct (Z.ltb_spec m 0); [reflexivity|].
  destruct (Z.ltb_spec n 0); [reflexivity|].
  destruct (Z.ltb_spec e 0); [reflexivity|].
  destruct (Z.ltb_spec k 0); [reflexivity|lia].
Qed.

Lemma cifrar_rsa_no_negativo (m n e k : Z) :
  0 <= m -> 0 <= n -> 0 <= e -> 0 <= k ->
  cifrar_rsa m n e k
  = (lm <- elevar (int_log10 m) ;;
     ln <- elevar (int_log10 n) ;;
     if lm + 1 + k <? ln + 1
     then m' <- aplicar_padding m k ;; elevar (potencia_mod_p m' e n)
     else lanzar AssertionError).
Proof.
  intros Hm Hn He Hk. unfold cifrar_rsa.
  destruct (Z.ltb_spec m 0); [lia|]. destruct (Z.ltb_spec n 0); [lia|].
  destruct (Z.ltb_spec e 0); [lia|]. destruct (Z.ltb_spec k 0); [lia|]. reflexivity.
Qed.

Lemma cifrar_rsa_cero (n e k : Z) (t : cinta) (i : nat) :
  cifrar_rsa 0 n e k t i = (Raise ValueError, i).
Proof.
  destruct (Z.lt_ge_cases n 0); [apply cifrar_rsa_negativo; lia|].
  destruct (Z.lt_ge_cases e 0); [apply cifrar_rsa_negativo; lia|].
  destruct (Z.lt_ge_cases k 0); [apply cifrar_rsa_negativo; lia|].
  rewrite cifrar_rsa_no_negativo by lia. reflexivity.
Qed.

Lemma cifrar_rsa_asercion (m n e k : Z) (t : cinta) (i : nat) :
  1 <= m -> 1 <= n -> 0 <= e -> 0 <= k -> cifras n <= cifras m + k ->
  cifrar_rsa m n e k t i = (Raise AssertionError, i).
Proof.
  intros Hm Hn He Hk Hc. rewrite cifrar_rsa_no_negativo by lia.
  unfold ligar, elevar. rewrite !cifras_int_log10 by lia.
  destruct (Z.ltb_spec (cifras m - 1 + 1 + k) (cifras n - 1 + 1)); [lia|reflexivity].
Qed.

Lemma cifrar_rsa_ok (m n e k : Z) (t : cinta) (i : nat) :
  1 <= m -> 1 <= n -> 0 <= e -> 0 <= k -> cifras m + k < cifras n ->
  exists s, 0 <= s < 10 ^ k /\ m * 10 ^ k + s < n
    /\ aplicar_padding m k t i = (Ok (m * 10 ^ k + s), (i + Z.to_nat k)%nat)
    /\ cifrar_rsa m n e k t i
       = (Ok ((m * 10 ^ k + s) ^ e mod n), (i + Z.to_nat k)%nat).
Proof.
  intros Hm Hn He Hk Hc. rewrite cifrar_rsa_no_negativo by lia.
  destruct (aplicar_padding_ok m k t i ltac:(lia) Hk) as (s & Ea & Hs).
  exists s. split; [exact Hs|].
  assert (m * 10 ^ k + s < n) as Hlt.
  { destruct (cifras_cotas m Hm) as (_ & _ & Hhi).
    destruct (cifras_cotas n Hn) as (_ & Hlo & _).
    assert (10 ^ (cifras m + k) <= 10 ^ (cifras n - 1)) as Hpow
        by (apply Z.pow_le_mono_r; lia).
    rewrite Z.pow_add_r in Hpow by (destruct (cifras_cotas m Hm); lia). nia. }
  split; [exact Hlt|]. split; [exact Ea|].
  unfold ligar, elevar. rewrite !cifras_int_log10 by lia.
  destruct (Z.ltb_spec (cifras m - 1 + 1 + k) (cifras n - 1 + 1)); [|lia].
  rewrite Ea. now rewrite potencia_mod_p_spec by lia.
Qed.


Lemma cifrar_rsa_no_diverge (m n e k : Z) (t : cinta) (i : nat) :
  fst (cifrar_rsa m n e k t i) <> Diverge.
Proof.
  destruct (cifrar_rsa m n e k t i) as [[c|ex|] j] eqn:E; cbn; try discriminate.
  exfalso.
  destruct (Z.lt_ge_cases m 0); [rewrite cifrar_rsa_negativo in E by lia; discriminate|].
  destruct (Z.lt_ge_cases n 0); [rewrite cifrar_rsa_negativo in E by lia; discriminate|].
  destruct (Z.lt_ge_cases e 0); [rewrite cifrar_rsa_negativo in E by lia; discriminate|].
  destruct (Z.lt_ge_cases k 0); [rewrite cifrar_rsa_negativo in E by lia; discriminate|].
  destruct (Z.eq_dec m 0) as [->|Hm0]; [rewrite cifrar_rsa_cero in E; discriminate|].
  destruct (Z.eq_dec n 0) as [->|Hn0].
  { rewrite cifrar_rsa_no_negativo in E by lia. unfold ligar, elevar in E.
    rewrite cifras_int_log10 in E by lia. discriminate. }
  destruct (Z.lt_ge_cases (cifras m + k) (cifras n)) as [Hc|Hc].
  - destruct (cifrar_rsa_ok m n e k t i) as (s & _ & _ & _ & E'); try lia. congruence.
  - rewrite cifrar_rsa_asercion in E by lia. discriminate.
Qed.

Lemma cifrar_cadena_rsa_nul (s : cadena) (n e k : Z) :
  In 0 s -> forall t i, exists ex j, cifrar_cadena_rsa s n e k t i = (Raise ex, j).
Proof.
  unfold cifrar_cadena_rsa.
  induction s as [|c s IH]; intros Hin t i; [destruct Hin|].
  cbn [comprension]. unfold ligar at 1.
  pose proof (cifrar_rsa_no_diverge c n e k t i) as Hnd.
  destruct (cifrar_rsa c n e k t i) as [[x|ex|] j] eqn:E; cbn in Hnd.
  - destruct Hin as [->|Hin]; [rewrite cifrar_rsa_cero in E; discriminate|].
    destruct (IH Hin t j) as (ex & j' & E'). unfold ligar. rewrite E'. eauto.
  - eauto.
  - contradiction.
Qed.

(** * The claims *)




(** C4: [romper_clave] on the public half [(n, e)] of a keypair that
    [generar_claves] returned with [e > 1] gives back the private exponent
    [d]; and it fails with [AssertionError] whenever [e] is not strictly
    between 1 and [phi = euler(n)] or is not coprime with [phi]. *)
Theorem C4_romper_clave :
  (forall (f : nat) (min_primo max_primo : Z) (t : cinta) (i j : nat) (n e d : Z),
      generar_claves f min_primo max_primo t i = (Ok (n, e, d), j) ->
      1 < e -> romper_clave n e = Ok d)
  /\ (forall n e : Z,
         e <= 1 \/ euler n <= e \/ Z.gcd (euler n) e <> 1 ->
         romper_clave n e = Raise AssertionError).
Proof.
  split.
  - intros f min_primo max_primo t i j n e d Hg He.
    apply generar_claves_invariante in Hg.
    destruct Hg as (p & q & [Hp _] & [Hq _] & Hne & -> & Hr & _ & Hcop & Hinv & _).
    unfold romper_clave. destruct (Z.ltb_spec 1 e); [|lia].
    rewrite euler_producto by assumption.
    destruct (Z.ltb_spec e ((p - 1) * (q - 1))); [|lia].
    apply coprimos_spec in Hcop. now rewrite Hcop.
  - intros n e H. unfold romper_clave.
    destruct (Z.ltb_spec 1 e); [|reflexivity].
    destruct (Z.ltb_spec e (euler n)); [|reflexivity].
    destruct (coprimos (euler n) e) eqn:Ec; [|reflexivity].
    apply coprimos_spec in Ec. lia.
Qed.

Lemma C4_testigo :
  romper_clave 20227 7669 = Ok 7037 /\ romper_clave 20227 1 = Raise AssertionError.
Proof.
  split.
  - apply (proj1 C4_romper_clave 50%nat 100 200 cinta_ejemplo 0%nat 4%nat 20227 7669 7037).
    + vm_compute. reflexivity.
    + lia.
  - apply (proj2 C4_romper_clave 20227 1). left. lia.
Defined.

(** C5: when [generar_numeros_primos] returns, it returns exactly [numero]
    pairwise distinct primes of [[min_primo, max_primo)]; it raises
    [ValueError] when [numero < 1], when [min_primo > max_primo], and, given
    enough fuel for its searches, whenever the interval holds fewer than
    [numero] primes; the search for one more prime raises [ValueError] as
    soon as no prime of the interval is left unchosen. *)
Theorem C5_generar_numeros_primos (min_primo max_primo numero : Z)
    (t : cinta) (i : nat) :
  (forall (f : nat) (v : primos) (j : nat),
      generar_numeros_primos f min_primo max_primo numero t i = (Ok v, j) ->
      Z.of_nat (length (lista_de v)) = numero
      /\ List.NoDup (lista_de v)
      /\ Forall (primo_en min_primo max_primo) (lista_de v))
  /\ (numero < 1 ->
      forall f, generar_numeros_primos f min_primo max_primo numero t i
                = (Raise ValueError, i))
  /\ (min_primo > max_primo ->
      forall f, generar_numeros_primos f min_primo max_primo numero t i
                = (Raise ValueError, i))
  /\ ((forall l, List.NoDup l -> Forall (primo_en min_primo max_primo) l ->
                 Z.of_nat (length l) < numero) ->
      exists f0, forall f, (f0 <= f)%nat ->
        fst (generar_numeros_primos f min_primo max_primo numero t i)
        = Raise ValueError)
  /\ (forall (output_primos : list Z) (n : Z),
         (forall p, primo_en min_primo max_primo p -> In p output_primos) ->
         exists f0, forall f, (f0 <= f)%nat ->
           elegir_primo f min_primo max_primo output_primos n = Raise ValueError).
Proof.
  split; [|split; [|split; [|split]]];
    [| | | |intros out n; apply elegir_primo_agotado].
  - intros f v j H. apply generar_numeros_primos_ok in H.
    destruct H as (H1 & _ & Hlen & Hnd & Hall & _). rewrite Hlen.
    split; [lia|]. split; assumption.
  - intros Hn f. unfold generar_numeros_primos.
    destruct (Z.ltb_spec numero 1); [reflexivity|lia].
  - intros Hm f. unfold generar_numeros_primos.
    destruct (Z.ltb_spec numero 1); [reflexivity|].
    destruct (Z.ltb_spec max_primo min_primo); [reflexivity|lia].
  - intros Hpocos.
    destruct (generar_numeros_primos_termina min_primo max_primo numero t i)
      as (f0 & r & Hr & HF).
    exists f0. intros f Hf. specialize (HF f Hf). cbn beta in HF.
    destruct (generar_numeros_primos f min_primo max_primo numero t i)
      as [[v|e|] j] eqn:E; cbn [fst] in *.
    + exfalso. apply generar_numeros_primos_ok in E.
      destruct E as (_ & _ & Hlen & Hnd & Hall & _).
      specialize (Hpocos _ Hnd Hall). lia.
    + apply generar_numeros_primos_error in E. now subst.
    + congruence.
Qed.

Lemma un_solo_primo (l : list Z) :
  List.NoDup l -> Forall (primo_en 2 3) l -> Z.of_nat (length l) < 2.
Proof.
  intros Hnd Hall. destruct l as [|x [|y r]]; cbn [length]; try lia.
  exfalso. inversion Hall as [|? ? [_ Hx] Hall']; subst.
  inversion Hall' as [|? ? [_ Hy] _]; subst.
  inversion Hnd as [|? ? Hnin _]; subst. apply Hnin. left. lia.
Qed.

Lemma C5_testigo :
  (Z.of_nat (length [113; 179]) = 2 /\ List.NoDup [113; 179]
   /\ Forall (primo_en 100 200) [113; 179])
  /\ generar_numeros_primos 50%nat 100 200 0 cinta_ejemplo 0%nat = (Raise ValueError, 0%nat)
  /\ generar_numeros_primos 50%nat 200 100 2 cinta_ejemplo 0%nat = (Raise ValueError, 0%nat)
  /\ (exists f0, forall f, (f0 <= f)%nat ->
        fst (generar_numeros_primos f 2 3 2 cinta_ejemplo 0%nat) = Raise ValueError)
  /\ exists f0, forall f, (f0 <= f)%nat ->
       elegir_primo f 2 3 [2] 1 = Raise ValueError.
Proof.
  split; [|split; [|split; [|split]]].
  - apply (proj1 (C5_generar_numeros_primos 100 200 2 cinta_ejemplo 0%nat)
             50%nat (Tupla [113; 179]) 2%nat).
    vm_compute. reflexivity.
  - apply (proj1 (proj2 (C5_generar_numeros_primos 100 200 0 cinta_ejemplo 0%nat))). lia.
  - apply (proj1 (proj2 (proj2 (C5_generar_numeros_primos 200 100 2 cinta_ejemplo 0%nat)))).
    lia.
  - apply (proj1 (proj2 (proj2 (proj2
             (C5_generar_numeros_primos 2 3 2 cinta_ejemplo 0%nat))))).
    exact un_solo_primo.
  - apply (proj2 (proj2 (proj2 (proj2
             (C5_generar_numeros_primos 2 3 2 cinta_ejemplo 0%nat))))).
    intros p [_ Hp]. left. lia.
Defined.

(** C8: every triple [(n, e, d)] that [generar_claves] returns satisfies
    the keypair invariant: [n = p * q] for two distinct primes of
    [[min_primo, max_primo)]; [e] is odd, in [[1, phi)] and coprime with
    [phi = (p - 1) * (q - 1)]; [d] is the inverse of [e] modulo [phi]. *)
Theorem C8_generar_claves (f : nat) (min_primo max_primo : Z)
    (t : cinta) (i j : nat) (n e d : Z) :
  generar_claves f min_primo max_primo t i = (Ok (n, e, d), j) ->
  exists p q,
    primo_en min_primo max_primo p /\ primo_en min_primo max_primo q /\ p <> q
    /\ n = p * q
    /\ 1 <= e < (p - 1) * (q - 1) /\ Z.odd e = true
    /\ Z.gcd ((p - 1) * (q - 1)) e = 1
    /\ 0 <= d < (p - 1) * (q - 1)
    /\ (e * d) mod ((p - 1) * (q - 1)) = 1.
Proof.
  intros Hg. apply generar_claves_invariante in Hg.
  destruct Hg as (p & q & Hp & Hq & Hne & Hn & He & Hodd & Hcop & _ & Hd & Hed).
  exists p, q. tauto.
Qed.

Lemma C8_testigo :
  exists p q,
    primo_en 100 200 p /\ primo_en 100 200 q /\ p <> q
    /\ 20227 = p * q
    /\ 1 <= 7669 < (p - 1) * (q - 1) /\ Z.odd 7669 = true
    /\ Z.gcd ((p - 1) * (q - 1)) 7669 = 1
    /\ 0 <= 7037 < (p - 1) * (q - 1)
    /\ (7669 * 7037) mod ((p - 1) * (q - 1)) = 1.
Proof.
  apply (C8_generar_claves 50%nat 100 200 cinta_ejemplo 0%nat 4%nat 20227 7669 7037).
  vm_compute. reflexivity.
Defined.








(** C10: for the message [m = 0] (the NUL code point), every modulus,
    exponent and digit count [>= 0], [cifrar_rsa] raises before it produces
    a ciphertext or reads the tape: [0] passes the non-negativity test and
    then [log10(0)] is undefined.  So [cifrar_cadena_rsa] raises on every
    string that contains NUL. *)
Theorem C10_nul_no_se_cifra (n e k : Z) (t : cinta) (i : nat) :
  0 <= k ->
  cifrar_rsa 0 n e k t i = (Raise ValueError, i)
  /\ (0 <= n -> 0 <= e ->
      (0 <? 0) || (n <? 0) || (e <? 0) || (k <? 0) = false
      /\ int_log10 0 = Raise ValueError)
  /\ forall s : cadena, In 0 s ->
       exists ex j, cifrar_cadena_rsa s n e k t i = (Raise ex, j).
Proof.
  intros Hk. split; [apply cifrar_rsa_cero|]. split.
  - intros Hn He. split; [|reflexivity].
    destruct (Z.ltb_spec n 0); [lia|]. destruct (Z.ltb_spec e 0); [lia|].
    destruct (Z.ltb_spec k 0); [lia|]. reflexivity.
  - intros s Hin. now apply cifrar_cadena_rsa_nul.
Qed.

Lemma C10_testigo :
  cifrar_rsa 0 10403 7 1 cinta_ejemplo 0%nat = (Raise ValueError, 0%nat)
  /\ (0 <= 10403 -> 0 <= 7 ->
      (0 <? 0) || (10403 <? 0) || (7 <? 0) || (1 <? 0) = false
      /\ int_log10 0 = Raise ValueError)
  /\ forall s : cadena, In 0 s ->
       exists ex j, cifrar_cadena_rsa s 10403 7 1 cinta_ejemplo 0%nat = (Raise ex, j).
Proof.
  apply (C10_nul_no_se_cifra 10403 7 1 cinta_ejemplo 0%nat). lia.
Defined.

(** ** Whole-message failure *)

Lemma descifrar_cadena_rsa_aborta (previos : list Z) (c : Z) (resto : list Z)
    (n d k : Z) (ex : excepcion) :
  (forall c', In c' previos ->
     exists x ch, descifrar_rsa c' n d k = Ok x /\ chr x = Ok ch) ->
  (x <-? descifrar_rsa c n d k ;; chr x) = Raise ex ->
  descifrar_cadena_rsa (previos ++ c :: resto) n d k = Raise ex.
Proof.
  unfold descifrar_cadena_rsa. intros Hprev Hc.
  induction previos as [|c0 previos IH]; cbn [app comprension_r].
  - now rewrite Hc.
  - destruct (Hprev c0 ltac:(now left)) as (x & ch & E1 & E2).
    rewrite E1. cbn [ligar_r]. rewrite E2. cbn [ligar_r].
    rewrite IH; [reflexivity|]. intros c' Hin. apply Hprev. now right.
Qed.

Lemma descifrar_inbox_corrupto (g : globales) (self u : User) (uid : Z)
    (date : cadena) (clist : list Z) (resto : list contenedor)
    (acc : list (cadena * cadena * cadena)) (n d : Z) :
  USERS g !! uid = Some u ->
  private_key (user_key self) = (n, d) ->
  descifrar_cadena_rsa clist n d (PADDING_DIGITS g) = Raise ValueError ->
  descifrar_inbox g self ((uid, date, Some clist) :: resto) acc
  = descifrar_inbox g self resto (acc ++ [(username u, date, MENSAJE_CORRUPTO)]).
Proof.
  intros Hu Hk Hd. cbn [descifrar_inbox]. unfold find_user. rewrite Hu.
  cbn [ligar_r]. rewrite Hk, Hd. reflexivity.
Qed.


(** C2, as stated, fails: in the message below the first character decrypts
    to ["H"] and only the second one is invalid, yet [descifrar_cadena_rsa]
    returns no string at all, with or without a marker in it; it raises
    [ValueError], and [check_inbox] shows the whole message as corrupted. *)
Lemma C2_contraejemplo :
  descifrar_rsa 1708974484760 10000049000057 1664409638897 10 = Ok 72
  /\ descifrar_rsa 1 10000049000057 1664409638897 10 = Raise ValueError
  /\ descifrar_cadena_rsa mensaje_roto 10000049000057 1664409638897 10
     = Raise ValueError
  /\ ~ (exists s, descifrar_cadena_rsa mensaje_roto 10000049000057 1664409638897 10
                  = Ok s)
  /\ check_inbox globales_ejemplo blas
     = Ok (Some [(literal "ana", literal "03/11/2026", MENSAJE_CORRUPTO)]).
Proof.
  assert (descifrar_cadena_rsa mensaje_roto 10000049000057 1664409638897 10
          = Raise ValueError) as E by (vm_compute; reflexivity).
  split; [vm_compute; reflexivity|]. split; [vm_compute; reflexivity|].
  split; [exact E|]. split.
  - intros [s Hs]. rewrite E in Hs. discriminate.
  - vm_compute. reflexivity.
Qed.

(** C2, amended: when the decryption of one element fails, after elements
    that decrypt, [descifrar_cadena_rsa] raises that element's exception
    for the whole message; [check_inbox] catches a [ValueError] per message,
    puts ["MENSAJE CORRUPTO"] in the place of that message's text and goes
    on with the rest of the inbox. *)
Theorem C2_fallo_por_mensaje :
  (forall (previos : list Z) (c : Z) (resto : list Z) (n d k : Z) (ex : excepcion),
      (forall c', In c' previos ->
         exists x ch, descifrar_rsa c' n d k = Ok x /\ chr x = Ok ch) ->
      (x <-? descifrar_rsa c n d k ;; chr x) = Raise ex ->
      descifrar_cadena_rsa (previos ++ c :: resto) n d k = Raise ex)
  /\ (forall (g : globales) (self u : User) (uid : Z) (date : cadena)
             (clist : list Z) (resto : list contenedor)
             (acc : list (cadena * cadena * cadena)) (n d : Z),
         USERS g !! uid = Some u ->
         private_key (user_key self) = (n, d) ->
         descifrar_cadena_rsa clist n d (PADDING_DIGITS g) = Raise ValueError ->
         descifrar_inbox g self ((uid, date, Some clist) :: resto) acc
         = descifrar_inbox g self resto
             (acc ++ [(username u, date, MENSAJE_CORRUPTO)])).
Proof.
  split.
  - apply descifrar_cadena_rsa_aborta.
  - apply descifrar_inbox_corrupto.
Qed.

Lemma C2_testigo :
  descifrar_cadena_rsa ([1708974484760] ++ 1 :: [1708974484760])
    10000049000057 1664409638897 10 = Raise ValueError
  /\ descifrar_inbox globales_ejemplo blas
       ((0, literal "03/11/2026", Some mensaje_roto) :: []) []
     = descifrar_inbox globales_ejemplo blas []
         ([] ++ [(username ana, literal "03/11/2026", MENSAJE_CORRUPTO)]).
Proof.
  split.
  - apply (proj1 C2_fallo_por_mensaje [1708974484760] 1 [1708974484760]
             10000049000057 1664409638897 10 ValueError).
    + intros c' [<-|[]]. exists 72, 72. split; vm_compute; reflexivity.
    + vm_compute. reflexivity.
  - apply (proj2 C2_fallo_por_mensaje globales_ejemplo blas ana 0
             (literal "03/11/2026") mensaje_roto [] []
             10000049000057 1664409638897).
    + vm_compute. reflexivity.
    + reflexivity.
    + vm_compute. reflexivity.
Defined.

(** ** Key validation *)

(** C3: [valid(10, 3, 3)] under the initial [PADDING_DIGITS = 10] does not
    return [False]: the first character of the test message fails the
    assertion of [cifrar_rsa], and the [AssertionError] leaves [valid],
    whose handler names [OverflowError] only. *)
Theorem C3_valid_propaga (t : cinta) (i : nat) :
  valid globales_iniciales 10 3 3 t i = (Raise AssertionError, i).
Proof.
  unfold valid, cifrar_cadena_rsa.
  change mensaje_prueba with (116 :: tl mensaje_prueba).
  cbn [comprension PADDING_DIGITS globales_iniciales]. unfold ligar.
  rewrite cifrar_rsa_asercion; [reflexivity|lia|lia|lia|lia|].
  vm_compute. discriminate.
Qed.

(** The sibling path that [valid] does handle: an [OverflowError] out of
    [chr] makes it answer [False]; and a [ValueError] escapes like the
    [AssertionError] above. *)
Example valid_desbordamiento :
  fst (cifrar_rsa 116 (10 ^ 30) 1 10 cinta_ejemplo 0%nat) = Ok 1163210987654
  /\ (x <-? descifrar_rsa 1163210987654 (10 ^ 30) 2 10 ;; chr x) = Raise OverflowError
  /\ valid globales_iniciales (10 ^ 30) 1 2 cinta_ejemplo 0%nat = (Ok false, 120%nat).
Proof.
  split; [|split]; vm_compute; reflexivity.
Qed.

Example valid_error_de_valor (t : cinta) (i : nat) :
  valid globales_iniciales (-1) 3 3 t i = (Raise ValueError, i).
Proof. reflexivity. Qed.

Example valid_clave_buena :
  valid globales_iniciales 10000049000057 65537 1664409638897 cinta_ejemplo 0%nat
  = (Ok true, 120%nat).
Proof. vm_compute. reflexivity. Qed.

(** * Further properties of [rsa.py] *)


Lemma generar_claves_clave_rsa (f : nat) (min_primo max_primo : Z)
    (t : cinta) (i j : nat) (n e d : Z) :
  generar_claves f min_primo max_primo t i = (Ok (n, e, d), j) -> clave_rsa n e d.
Proof.
  intros Hg. apply generar_claves_invariante in Hg.
  destruct Hg as (p & q & [Hp _] & [Hq _] & Hne & Hn & He & _ & _ & _ & Hd & Hed).
  exists p, q. repeat (split; [first [assumption|lia]|]). exact Hed.
Qed.

Lemma clave_rsa_modulo (n e d : Z) : clave_rsa n e d -> 6 <= n.
Proof.
  intros (p & q & Hp & Hq & Hne & -> & _).
  apply Z.prime_ge_2 in Hp, Hq. nia.
Qed.

Lemma caracter_ida_y_vuelta (n e d k m : Z) (t : cinta) (i : nat) :
  clave_rsa n e d -> 0 <= k -> 1 <= m -> cifras m + k < cifras n ->
  exists c, cifrar_rsa m n e k t i = (Ok c, (i + Z.to_nat k)%nat)
            /\ descifrar_rsa c n d k = Ok m.
Proof.
  intros Hclave Hk Hm Hc. pose proof (clave_rsa_modulo _ _ _ Hclave) as Hn.
  destruct Hclave as (p & q & Hp & Hq & Hne & -> & He & Hd & Hed).
  destruct (cifrar_rsa_ok m (p * q) e k t i) as (s & Hs & Hlt & _ & Ec); try lia.
  exists ((m * 10 ^ k + s) ^ e mod (p * q)). split; [exact Ec|].
  unfold descifrar_rsa. rewrite potencia_mod_p_spec by lia. cbn [ligar_r].
  pose proof (Z.pow_pos_nonneg 10 k ltac:(lia) Hk) as Hpow.
  rewrite rsa_correcto by (try assumption; nia).
  destruct (eliminar_padding_ok (m * 10 ^ k + s) k) as [Eq _]; [nia| |].
  - rewrite cifras_con_padding by lia. destruct (cifras_cotas m Hm). lia.
  - rewrite Eq. f_equal. now apply division_padding.
Qed.

Lemma chr_ok (c : Z) : 0 <= c < 1114112 -> chr c = Ok c.
Proof.
  intros Hc. unfold chr.
  destruct (Z.ltb_spec c (-2147483648)); [lia|].
  destruct (Z.ltb_spec 2147483647 c); [lia|]. cbn [orb].
  destruct (Z.leb_spec 0 c); [|lia]. destruct (Z.ltb_spec c 1114112); [|lia].
  reflexivity.
Qed.


Lemma cadena_ida_y_vuelta (n e d k : Z) (s : cadena) :
  clave_rsa n e d -> 0 <= k -> Forall (cabe n k) s ->
  forall (t : cinta) (i : nat),
  exists cs,
    cifrar_cadena_rsa s n e k t i = (Ok cs, (i + length s * Z.to_nat k)%nat)
    /\ length cs = length s
    /\ descifrar_cadena_rsa cs n d k = Ok s.
Proof.
  intros Hclave Hk Hall. unfold cifrar_cadena_rsa, descifrar_cadena_rsa.
  induction Hall as [|c s [Hc Hcif] Hall IH]; intros t i.
  - exists []. cbn. rewrite Nat.add_0_r. auto.
  - destruct (caracter_ida_y_vuelta n e d k c t i Hclave Hk ltac:(lia) Hcif)
      as (x & Ex & Dx).
    destruct (IH t (i + Z.to_nat k)%nat) as (cs & Ecs & Hlen & Dcs).
    exists (x :: cs). cbn [comprension comprension_r length].
    unfold ligar at 1. rewrite Ex. unfold ligar at 1. rewrite Ecs.
    unfold ret. rewrite Dx. cbn [ligar_r]. rewrite chr_ok by lia.
    cbn [ligar_r]. rewrite Dcs. cbn [ligar_r].
    split; [f_equal; lia|]. split; [lia|reflexivity].
Qed.





Lemma romper_clave_recupera (f : nat) (min_primo max_primo : Z)
    (t : cinta) (i j : nat) (n e d : Z) :
  generar_claves f min_primo max_primo t i = (Ok (n, e, d), j) ->
  1 < e -> romper_clave n e = Ok d.
Proof.
  intros Hg He. apply generar_claves_invariante in Hg.
  destruct Hg as (p & q & [Hp _] & [Hq _] & Hne & -> & Hr & _ & Hcop & Hinv & _).
  unfold romper_clave. destruct (Z.ltb_spec 1 e); [|lia].
  rewrite euler_producto by assumption.
  destruct (Z.ltb_spec e ((p - 1) * (q - 1))); [|lia].
  apply coprimos_spec in Hcop. now rewrite Hcop.
Qed.

(** X2: the attack works.  For a keypair of [generar_claves] with [e > 1]
    and a string encrypted without padding under its public half,
    [ataque_texto_plano], given the ciphertext and the public key only,
    returns the plaintext. *)
Theorem X2_ataque_texto_plano (f : nat) (min_primo max_primo : Z)
    (t : cinta) (i j : nat) (n e d : Z) (s : cadena) (t' : cinta) (i' : nat) :
  generar_claves f min_primo max_primo t i = (Ok (n, e, d), j) ->
  1 < e -> Forall (cabe n 0) s ->
  exists cs, cifrar_cadena_rsa s n e 0 t' i' = (Ok cs, i')
             /\ ataque_texto_plano cs n e = Ok s.
Proof.
  intros Hg He Hall.
  destruct (cadena_ida_y_vuelta n e d 0 s (generar_claves_clave_rsa _ _ _ _ _ _ _ _ _ Hg)
              ltac:(lia) Hall t' i') as (cs & Ecs & _ & Dcs).
  exists cs. split.
  - rewrite Ecs. f_equal. cbn. lia.
  - unfold ataque_texto_plano.
    rewrite (romper_clave_recupera _ _ _ _ _ _ _ _ _ Hg He). exact Dcs.
Qed.

Lemma X2_testigo :
  exists cs, cifrar_cadena_rsa (literal "Hola") 20227 7669 0 cinta_ejemplo 7%nat
             = (Ok cs, 7%nat)
             /\ ataque_texto_plano cs 20227 7669 = Ok (literal "Hola").
Proof.
  apply (X2_ataque_texto_plano 50%nat 100 200 cinta_ejemplo 0%nat 4%nat
           20227 7669 7037 (literal "Hola") cinta_ejemplo 7%nat).
  - vm_compute. reflexivity.
  - lia.
  - repeat constructor; vm_compute; try reflexivity; intros H; discriminate H.
Defined.

Lemma subir_minimo (f : nat) :
  forall n p, subir f n = Ok p -> forall x, n <= x < p -> ~ Z.prime x.
Proof.
  induction f as [|f IH]; intros n p; cbn [subir];
    destruct (es_primo n) eqn:E; intros H x Hx; try discriminate;
    try (injection H as <-; lia).
  destruct (Z.eq_dec x n) as [->|Hne].
  - now apply es_primo_false.
  - apply (IH _ _ H). lia.
Qed.

(** X3: [siguiente_primo(n)] returns the least prime above [n]: whenever
    it returns [p], [p] is prime, [n < p] and no prime lies strictly
    between; it never raises; and from some fuel on it returns. *)
Theorem X3_siguiente_primo (n : Z) :
  (forall f p, siguiente_primo f n = Ok p ->
     Z.prime p /\ n < p /\ forall x, n < x < p -> ~ Z.prime x)
  /\ (forall f e, siguiente_primo f n <> Raise e)
  /\ exists f0 p, forall f, (f0 <= f)%nat -> siguiente_primo f n = Ok p.
Proof.
  split; [|split].
  - intros f p H. pose proof (siguiente_primo_ok _ _ _ H) as [Hp Hlt].
    split; [exact Hp|]. split; [exact Hlt|].
    intros x Hx. apply (subir_minimo _ _ _ H). lia.
  - intros f e. apply subir_sin_error.
  - destruct (siguiente_primo_termina n) as (f0 & r & Hr & HF).
    destruct r as [p|e|]; [| |contradiction].
    + exists f0, p. exact HF.
    + exfalso. apply (subir_sin_error f0 (n + 1) e). apply (HF f0). lia.
Qed.

Lemma X3_testigo :
  Z.prime 17 /\ 13 < 17 /\ forall x, 13 < x < 17 -> ~ Z.prime x.
Proof.
  apply (proj1 (X3_siguiente_primo 13) 10%nat 17). vm_compute. reflexivity.
Defined.

Lemma bajar_maximo (f : nat) :
  forall n p, bajar f n = Ok p -> forall x, p < x <= n -> ~ Z.prime x.
Proof.
  induction f as [|f IH]; intros n p; cbn [bajar];
    destruct (es_primo n) eqn:E; intros H x Hx; try discriminate;
    try (injection H as <-; lia).
  destruct (Z.eq_dec x n) as [->|Hne].
  - now apply es_primo_false.
  - apply (IH _ _ H). lia.
Qed.

(** X4: [anterior_primo(n)] returns [NE] for every [n <= 2]; for [n > 2]
    its downward search needs at most [n - 3] steps and returns the
    greatest prime below [n]. *)
Theorem X4_anterior_primo (n : Z) :
  (n <= 2 -> forall f, anterior_primo f n = Ok NE)
  /\ (2 < n -> forall f, (Z.to_nat (n - 3) <= f)%nat ->
      exists p, anterior_primo f n = Ok (Entero p)
                /\ Z.prime p /\ p < n /\ forall x, p < x < n -> ~ Z.prime x).
Proof.
  split.
  - intros Hn f. unfold anterior_primo. destruct (Z.ltb_spec 2 n); [lia|reflexivity].
  - intros Hn f Hf. unfold anterior_primo. destruct (Z.ltb_spec 2 n); [|lia].
    destruct (bajar_existe (Z.to_nat (n - 3)) (n - 1) 2 Z.prime_2 ltac:(lia) ltac:(lia))
      as (p & E).
    pose proof (bajar_mas_fuel _ _ _ f E Hf) as E'.
    exists p. rewrite E'. cbn [ligar_r]. split; [reflexivity|].
    pose proof (bajar_ok _ _ _ E') as [Hp Hle].
    split; [exact Hp|]. split; [lia|].
    intros x Hx. apply (bajar_maximo _ _ _ E'). lia.
Qed.

Lemma X4_testigo :
  anterior_primo 0 2 = Ok NE
  /\ exists p, anterior_primo 20 23 = Ok (Entero p)
               /\ Z.prime p /\ p < 23 /\ forall x, p < x < 23 -> ~ Z.prime x.
Proof.
  split.
  - apply (proj1 (X4_anterior_primo 2)). lia.
  - apply (proj2 (X4_anterior_primo 23)); [lia|]. vm_compute. lia.
Defined.

Lemma elegir_e_sin_error (f : nat) (phi : Z) :
  2 <= phi -> forall t i e, fst (elegir_e f phi t i) <> Raise e.
Proof.
  intros Hphi. induction f as [|f IH]; intros t i e; cbn [elegir_e]; [discriminate|].
  unfold ligar, randrange. replace (phi - 1 + 2 - 1) with phi by lia.
  assert (0 < phi / 2) as Hn by (apply Z.div_str_pos; lia).
  destruct (Z.ltb_spec 0 (phi / 2)); [|lia].
  destruct (coprimos phi (1 + 2 * (t i mod (phi / 2)))); [discriminate|apply IH].
Qed.

(** X5: [generar_claves] fails in one way only: when the prime generator
    raises [ValueError] for lack of two primes in the interval.  Choosing
    the exponent and inverting it never raise. *)
Theorem X5_generar_claves_error (f : nat) (min_primo max_primo : Z)
    (t : cinta) (i j : nat) (ex : excepcion) :
  generar_claves f min_primo max_primo t i = (Raise ex, j) ->
  ex = ValueError
  /\ generar_numeros_primos f min_primo max_primo 2 t i = (Raise ValueError, j).
Proof.
  unfold generar_claves. unfold ligar at 1.
  destruct (generar_numeros_primos f min_primo max_primo 2 t i) as [[v|e0|] i1] eqn:Eg;
    try discriminate.
  - pose proof (generar_numeros_primos_ok _ _ _ _ _ _ _ _ Eg)
      as (_ & _ & Hlen & Hnd & Hall & _).
    destruct v as [p0|[|p [|q [|x r]]]]; try discriminate. cbn [lista_de] in *.
    inversion Hall as [|? ? [Hp _] Hall']; subst.
    inversion Hall' as [|? ? [Hq _] _]; subst.
    inversion Hnd as [|? ? Hnin _]; subst.
    assert (p <> q) as Hne by (intros ->; apply Hnin; now left).
    pose proof (Z.prime_ge_2 p Hp). pose proof (Z.prime_ge_2 q Hq).
    assert (2 <= (p - 1) * (q - 1)) as Hphi by nia.
    unfold ligar at 1.
    pose proof (elegir_e_sin_error f _ Hphi t i1) as Hsin.
    destruct (elegir_e f ((p - 1) * (q - 1)) t i1) as [[e'|e1|] i2] eqn:Ee;
      try discriminate.
    + apply elegir_e_ok in Ee. destruct Ee as (Hr & _ & Hcop).
      destruct (inversa_mod_p_spec e' ((p - 1) * (q - 1)) ltac:(lia)) as [Hinv _].
      destruct (Hinv ltac:(now rewrite Z.gcd_comm)) as (x & Ex & _).
      unfold ligar, elevar. rewrite Ex. discriminate.
    + exfalso. now apply (Hsin e1).
  - intros H. injection H as <- <-.
    apply generar_numeros_primos_error in Eg as Ev. subst e0. auto.
Qed.

Lemma X5_testigo :
  ValueError = ValueError
  /\ generar_numeros_primos 50 2 3 2 cinta_ejemplo 0%nat = (Raise ValueError, 2%nat).
Proof.
  apply (X5_generar_claves_error 50%nat 2 3 cinta_ejemplo 0%nat 2%nat ValueError).
  vm_compute. reflexivity.
Defined.








Lemma cifrar_rsa_errores (m n e k : Z) (t : cinta) (i j : nat) (ex : excepcion) :
  cifrar_rsa m n e k t i = (Raise ex, j) ->
  (ex = ValueError \/ ex = AssertionError) /\ j = i.
Proof.
  intros E.
  destruct (Z.lt_ge_cases m 0);
    [rewrite cifrar_rsa_negativo in E by lia; injection E as <- <-; auto|].
  destruct (Z.lt_ge_cases n 0);
    [rewrite cifrar_rsa_negativo in E by lia; injection E as <- <-; auto|].
  destruct (Z.lt_ge_cases e 0);
    [rewrite cifrar_rsa_negativo in E by lia; injection E as <- <-; auto|].
  destruct (Z.lt_ge_cases k 0);
    [rewrite cifrar_rsa_negativo in E by lia; injection E as <- <-; auto|].
  destruct (Z.eq_dec m 0) as [->|Hm0];
    [rewrite cifrar_rsa_cero in E; injection E as <- <-; auto|].
  destruct (Z.eq_dec n 0) as [->|Hn0].
  { rewrite cifrar_rsa_no_negativo in E by lia. unfold ligar, elevar in E.
    rewrite cifras_int_log10 in E by lia. cbn in E. injection E as <- <-. auto. }
  destruct (Z.lt_ge_cases (cifras m + k) (cifras n)) as [Hc|Hc].
  - destruct (cifrar_rsa_ok m n e k t i) as (s & _ & _ & _ & E'); try lia. congruence.
  - rewrite cifrar_rsa_asercion in E by lia. injection E as <- <-. auto.
Qed.

Lemma cifrar_cadena_rsa_errores (s : cadena) (n e k : Z) :
  forall (t : cinta) (i j : nat) (ex : excepcion),
    cifrar_cadena_rsa s n e k t i = (Raise ex, j) ->
    ex = ValueError \/ ex = AssertionError.
Proof.
  unfold cifrar_cadena_rsa. induction s as [|c s IH]; intros t i j ex;
    cbn [comprension]; [discriminate|].
  unfold ligar at 1.
  destruct (cifrar_rsa c n e k t i) as [[x|ex0|] i1] eqn:E; try discriminate.
  - unfold ligar. destruct (comprension _ s t i1) as [[xs|ex1|] i2] eqn:Es;
      try discriminate.
    intros [= <- <-]. eapply IH; eauto.
  - intros [= <- <-]. now apply cifrar_rsa_errores in E.
Qed.

Lemma cifrar_cadena_rsa_no_diverge (s : cadena) (n e k : Z) :
  forall (t : cinta) (i : nat), fst (cifrar_cadena_rsa s n e k t i) <> Diverge.
Proof.
  unfold cifrar_cadena_rsa. induction s as [|c s IH]; intros t i;
    cbn [comprension]; [discriminate|].
  unfold ligar at 1. pose proof (cifrar_rsa_no_diverge c n e k t i) as Hnd.
  destruct (cifrar_rsa c n e k t i) as [[x|ex0|] i1] eqn:E; cbn in Hnd;
    [|discriminate|contradiction].
  unfold ligar. specialize (IH t i1).
  destruct (comprension _ s t i1) as [[xs|ex1|] i2]; cbn in *;
    [discriminate|discriminate|contradiction].
Qed.

(** * Further properties of [criptochat.py] *)

Lemma cadena_eqb_eq (a b : cadena) : cadena_eqb a b = true <-> a = b.
Proof.
  unfold cadena_eqb. rewrite andb_true_iff, Nat.eqb_eq. revert b.
  induction a as [|x a IH]; intros [|y b]; cbn [length combine forallb];
    try (split; [intros [? _]|intros ?]; discriminate).
  - split; auto.
  - rewrite andb_true_iff, Z.eqb_eq. split.
    + intros [Hlen [-> Hall]]. f_equal. apply IH. split; [lia|exact Hall].
    + intros H. injection H as -> ->. split; [reflexivity|].
      split; [reflexivity|]. now apply IH.
Qed.





(** X10: an answer [True] of [valid] means that the test message was
    encrypted and came back letter for letter; an answer [False] means
    that it was encrypted and then either came back different or stopped
    with [OverflowError]; and [valid] itself never raises
    [OverflowError]. *)
Theorem X10_valid_respuestas (g : globales) (n e d : Z) (t : cinta) (i j : nat) :
  (valid g n e d t i = (Ok true, j) ->
     exists cs,
       cifrar_cadena_rsa mensaje_prueba n e (criptochat.PADDING_DIGITS g) t i
       = (Ok cs, j)
       /\ descifrar_cadena_rsa cs n d (criptochat.PADDING_DIGITS g) = Ok mensaje_prueba)
  /\ (valid g n e d t i = (Ok false, j) ->
      exists cs,
        cifrar_cadena_rsa mensaje_prueba n e (criptochat.PADDING_DIGITS g) t i
        = (Ok cs, j)
        /\ (descifrar_cadena_rsa cs n d (criptochat.PADDING_DIGITS g)
            = Raise OverflowError
            \/ exists s, descifrar_cadena_rsa cs n d (criptochat.PADDING_DIGITS g) = Ok s
                         /\ s <> mensaje_prueba))
  /\ valid g n e d t i <> (Raise OverflowError, j).
Proof.
  unfold valid, ligar, elevar.
  destruct (cifrar_cadena_rsa mensaje_prueba n e (criptochat.PADDING_DIGITS g) t i)
    as [[cs|ex|] i1] eqn:Ec.
  - destruct (descifrar_cadena_rsa cs n d (criptochat.PADDING_DIGITS g))
      as [s|ex|] eqn:Ed.
    + destruct (cadena_eqb mensaje_prueba s) eqn:Eq.
      * apply cadena_eqb_eq in Eq. subst s.
        split; [|split]; [|discriminate|discriminate].
        intros H. injection H as <-. exists cs. split; [first [exact Ec|reflexivity]|first [exact Ed|reflexivity]].
      * split; [|split]; [discriminate| |discriminate].
        intros H. injection H as <-. exists cs. split; [first [exact Ec|reflexivity]|].
        right. exists s. split; [first [exact Ed|reflexivity]|].
        intros ->. assert (cadena_eqb mensaje_prueba mensaje_prueba = true)
          by now apply cadena_eqb_eq. congruence.
    + destruct ex; cbn; (split; [|split]; [discriminate| |discriminate]);
        try discriminate.
      intros [= <-]. exists cs. split; [first [exact Ec|reflexivity]|left; first [exact Ed|reflexivity]].
    + split; [|split]; discriminate.
  - apply cifrar_cadena_rsa_errores in Ec.
    destruct Ec as [-> | ->]; cbn; (split; [|split]; discriminate).
  - split; [|split]; discriminate.
Qed.

Lemma X10_testigo :
  exists cs,
    cifrar_cadena_rsa mensaje_prueba 10000049000057 65537
      (criptochat.PADDING_DIGITS globales_iniciales) cinta_ejemplo 0%nat
    = (Ok cs, 120%nat)
    /\ descifrar_cadena_rsa cs 10000049000057 1664409638897
         (criptochat.PADDING_DIGITS globales_iniciales) = Ok mensaje_prueba.
Proof.
  apply (proj1 (X10_valid_respuestas globales_iniciales 10000049000057 65537
                  1664409638897 cinta_ejemplo 0%nat 120%nat)).
  vm_compute. reflexivity.
Defined.

Lemma descifrar_inbox_comprension (g : globales) (self : User) (l : list contenedor) :
  forall acc,
    descifrar_inbox g self l acc
    = (r <-? comprension_r (entrada g self) l ;; Ok (acc ++ r)).
Proof.
  induction l as [|[[uid date] m] l IH]; intros acc; cbn [descifrar_inbox comprension_r].
  - cbn. now rewrite app_nil_r.
  - unfold entrada at 1. destruct (criptochat.find_user g uid) as [u| |]; cbn [ligar_r];
      try reflexivity.
    destruct m as [clist|].
    + destruct (private_key (user_key self)) as [n d].
      destruct (descifrar_cadena_rsa clist n d (criptochat.PADDING_DIGITS g))
        as [s|ex|]; cbn [ligar_r capturar_r]; try reflexivity.
      * rewrite IH. destruct (comprension_r (entrada g self) l); cbn [ligar_r];
          try reflexivity. now rewrite <- app_assoc.
      * destruct (excepcion_eqb ValueError ex); cbn [ligar_r]; try reflexivity.
        rewrite IH. destruct (comprension_r (entrada g self) l); cbn [ligar_r];
          try reflexivity. now rewrite <- app_assoc.
    + cbn [ligar_r]. rewrite IH.
      destruct (comprension_r (entrada g self) l); cbn [ligar_r]; try reflexivity.
      now rewrite <- app_assoc.
Qed.

Lemma check_inbox_comprension (g : globales) (self : User) :
  criptochat.check_inbox g self
  = match inbox self with
    | None => Ok None
    | Some l => r <-? comprension_r (entrada g self) l ;; Ok (Some r)
    end.
Proof.
  unfold criptochat.check_inbox. destruct (inbox self) as [l|]; [|reflexivity].
  rewrite descifrar_inbox_comprension.
  destruct (comprension_r (entrada g self) l); reflexivity.
Qed.

Lemma comprension_r_Forall2 {A B : Type} (f : A -> resultado B) (l : list A) :
  forall r, comprension_r f l = Ok r <-> Forall2 (fun a b => f a = Ok b) l r.
Proof.
  induction l as [|a l IH]; intros r; cbn [comprension_r].
  - split.
    + intros [= <-]. constructor.
    + intros H. inversion H. reflexivity.
  - split.
    + destruct (f a) as [b| |] eqn:E; cbn [ligar_r]; try discriminate.
      destruct (comprension_r f l) as [bs| |] eqn:Es; cbn [ligar_r]; try discriminate.
      intros [= <-]. constructor; [exact E|]. now apply IH.
    + intros H. inversion H as [|? b ? bs Hb Hbs]; subst.
      rewrite Hb. cbn [ligar_r]. apply IH in Hbs. now rewrite Hbs.
Qed.

Lemma excepcion_eqb_eq (a b : excepcion) : excepcion_eqb a b = true <-> a = b.
Proof. destruct a, b; cbn; split; congruence. Qed.

Lemma entrada_ok (g : globales) (self : User) (uid : Z) (date : cadena)
    (m : option (list Z)) (x : cadena * cadena * cadena) :
  entrada g self (uid, date, m) = Ok x ->
  exists u texto,
    criptochat.USERS g !! uid = Some u /\ x = (username u, date, texto)
    /\ match m with
       | None => texto = MENSAJE_CORRUPTO
       | Some clist =>
           descifrar_cadena_rsa clist (fst (private_key (user_key self)))
             (snd (private_key (user_key self))) (criptochat.PADDING_DIGITS g)
           = Ok texto
           \/ (descifrar_cadena_rsa clist (fst (private_key (user_key self)))
                 (snd (private_key (user_key self))) (criptochat.PADDING_DIGITS g)
               = Raise ValueError
               /\ texto = MENSAJE_CORRUPTO)
       end.
Proof.
  unfold entrada, criptochat.find_user.
  destruct (criptochat.USERS g !! uid) as [u|]; cbn [ligar_r]; [|discriminate].
  destruct m as [clist|].
  - destruct (private_key (user_key self)) as [n d]. cbn [fst snd].
    destruct (descifrar_cadena_rsa clist n d (criptochat.PADDING_DIGITS g))
      as [s|ex|] eqn:Ed; cbn [ligar_r capturar_r]; try discriminate.
    + intros [= <-]. exists u, s. auto.
    + destruct (excepcion_eqb ValueError ex) eqn:Ex; [|discriminate].
      apply excepcion_eqb_eq in Ex. subst ex.
      intros [= <-]. exists u, MENSAJE_CORRUPTO. auto.
  - intros [= <-]. exists u, MENSAJE_CORRUPTO. auto.
Qed.

Lemma entrada_error (g : globales) (self : User) (c : contenedor) (ex : excepcion) :
  entrada g self c = Raise ex -> ex <> ValueError.
Proof.
  destruct c as [[uid date] m]. unfold entrada, criptochat.find_user.
  destruct (criptochat.USERS g !! uid) as [u|]; cbn [ligar_r];
    [|intros [= <-]; discriminate].
  destruct m as [clist|]; [|discriminate].
  destruct (private_key (user_key self)) as [n d].
  destruct (descifrar_cadena_rsa clist n d (criptochat.PADDING_DIGITS g))
    as [s|ex'|]; cbn [ligar_r capturar_r]; try discriminate.
  destruct (excepcion_eqb ValueError ex') eqn:Ex; [discriminate|].
  intros [= <-] ->. cbn in Ex. discriminate.
Qed.

Lemma comprension_r_error {A B : Type} (f : A -> resultado B) (l : list A)
    (ex : excepcion) :
  comprension_r f l = Raise ex -> exists a, In a l /\ f a = Raise ex.
Proof.
  induction l as [|a l IH]; cbn [comprension_r]; [discriminate|].
  destruct (f a) as [b|ex'|] eqn:E; cbn [ligar_r]; try discriminate.
  - destruct (comprension_r f l) as [bs|ex'|] eqn:Es; cbn [ligar_r]; try discriminate.
    intros [= <-]. destruct (IH eq_refl) as (a' & Hin & Ha').
    exists a'. split; [now right|exact Ha'].
  - intros [= <-]. exists a. split; [now left|exact E].
Qed.

(** X11: the list that [check_inbox] returns has one entry per container of
    the inbox, in order: the sender's username as [USERS] has it, the
    date, and as text the decrypted message, or ["MENSAJE CORRUPTO"] when
    the container holds [None] or its decryption raised [ValueError].  An
    inbox that is [None] gives [None]. *)
Theorem X11_check_inbox_entradas (g : globales) (self : User) :
  (inbox self = None -> criptochat.check_inbox g self = Ok None)
  /\ forall r, criptochat.check_inbox g self = Ok (Some r) ->
       exists l, inbox self = Some l /\ length r = length l
         /\ Forall2
              (fun (c : contenedor) (x : cadena * cadena * cadena) =>
                 exists u texto,
                   criptochat.USERS g !! fst (fst c) = Some u
                   /\ x = (username u, snd (fst c), texto)
                   /\ match snd c with
                      | None => texto = MENSAJE_CORRUPTO
                      | Some clist =>
                          descifrar_cadena_rsa clist
                            (fst (private_key (user_key self)))
                            (snd (private_key (user_key self)))
                            (criptochat.PADDING_DIGITS g) = Ok texto
                          \/ (descifrar_cadena_rsa clist
                                (fst (private_key (user_key self)))
                                (snd (private_key (user_key self)))
                                (criptochat.PADDING_DIGITS g) = Raise ValueError
                              /\ texto = MENSAJE_CORRUPTO)
                      end) l r.
Proof.
  rewrite check_inbox_comprension. split.
  - intros ->. reflexivity.
  - intros r. destruct (inbox self) as [l|]; [|discriminate].
    destruct (comprension_r (entrada g self) l) as [r'| |] eqn:E; cbn [ligar_r];
      try discriminate.
    intros [= <-]. apply comprension_r_Forall2 in E.
    exists l. split; [reflexivity|]. split; [symmetry; eapply Forall2_length; eauto|].
    eapply Forall2_impl; [exact E|].
    intros [[uid date] m] x Hx. cbn [fst snd]. now apply entrada_ok.
Qed.

Lemma X11_testigo :
  exists l, inbox blas = Some l
    /\ length [(literal "ana", literal "03/11/2026", MENSAJE_CORRUPTO)] = length l
    /\ Forall2
         (fun (c : contenedor) (x : cadena * cadena * cadena) =>
            exists u texto,
              criptochat.USERS globales_ejemplo !! fst (fst c) = Some u
              /\ x = (username u, snd (fst c), texto)
              /\ match snd c with
                 | None => texto = MENSAJE_CORRUPTO
                 | Some clist =>
                     descifrar_cadena_rsa clist
                       (fst (private_key (user_key blas)))
                       (snd (private_key (user_key blas)))
                       (criptochat.PADDING_DIGITS globales_ejemplo) = Ok texto
                     \/ (descifrar_cadena_rsa clist
                           (fst (private_key (user_key blas)))
                           (snd (private_key (user_key blas)))
                           (criptochat.PADDING_DIGITS globales_ejemplo)
                         = Raise ValueError
                         /\ texto = MENSAJE_CORRUPTO)
                 end) l [(literal "ana", literal "03/11/2026", MENSAJE_CORRUPTO)].
Proof.
  apply (proj2 (X11_check_inbox_entradas globales_ejemplo blas)).
  vm_compute. reflexivity.
Defined.

(** X12: [check_inbox] never lets a [ValueError] out; and a container whose
    sender id is not in [USERS] stops the whole listing with
    [UserNotFound], also when the containers before it are readable. *)
Theorem X12_check_inbox_fallos (g : globales) (self : User) :
  (forall ex, criptochat.check_inbox g self = Raise ex -> ex <> ValueError)
  /\ forall (antes : list contenedor) (uid : Z) (date : cadena)
            (m : option (list Z)) (despues : list contenedor)
            (r0 : list (cadena * cadena * cadena)),
       inbox self = Some (antes ++ (uid, date, m) :: despues) ->
       descifrar_inbox g self antes [] = Ok r0 ->
       criptochat.USERS g !! uid = None ->
       criptochat.check_inbox g self = Raise UserNotFound.
Proof.
  rewrite check_inbox_comprension. split.
  - intros ex. destruct (inbox self) as [l|]; [|discriminate].
    destruct (comprension_r (entrada g self) l) as [r'|ex'|] eqn:E; cbn [ligar_r];
      try discriminate.
    intros [= <-]. apply comprension_r_error in E. destruct E as (c & _ & Hc).
    now apply entrada_error in Hc.
  - intros antes uid date m despues r0 -> Hantes Huid.
    rewrite descifrar_inbox_comprension in Hantes.
    destruct (comprension_r (entrada g self) antes) as [ra| |] eqn:Ea;
      cbn [ligar_r] in Hantes; try discriminate.
    clear Hantes. revert ra Ea.
    induction antes as [|c antes IH]; intros ra Ea; cbn [app comprension_r].
    + unfold entrada at 1, criptochat.find_user. rewrite Huid. reflexivity.
    + cbn [comprension_r] in Ea.
      destruct (entrada g self c) as [x| |]; cbn [ligar_r] in *; try discriminate.
      destruct (comprension_r (entrada g self) antes) as [rb| |] eqn:Eb;
        cbn [ligar_r] in Ea; try discriminate.
      specialize (IH rb eq_refl).
      destruct (comprension_r (entrada g self) (antes ++ (uid, date, m) :: despues))
        as [r1|ex1|]; cbn [ligar_r] in *; try discriminate. exact IH.
Qed.

Lemma X12_testigo :
  criptochat.check_inbox globales_iniciales blas = Raise UserNotFound.
Proof.
  apply (proj2 (X12_check_inbox_fallos globales_iniciales blas)
           [] 0 (literal "03/11/2026") (Some mensaje_roto) [] []); reflexivity.
Defined.

(** * Users as shared objects *)

Lemma dict_get_set_eq {V : Type} (k : Z) (v : V) (d : list (Z * V)) :
  objetos.dict_get k (objetos.dict_set k v d) = Some v.
Proof.
  induction d as [|[k' v'] d IH]; cbn.
  - now rewrite Z.eqb_refl.
  - destruct (Z.eqb_spec k' k) as [->|Hne]; cbn.
    + now rewrite Z.eqb_refl.
    + destruct (Z.eqb_spec k' k); [contradiction|exact IH].
Qed.

Lemma dict_get_set_ne {V : Type} (k k0 : Z) (v : V) (d : list (Z * V)) :
  k0 <> k -> objetos.dict_get k0 (objetos.dict_set k v d) = objetos.dict_get k0 d.
Proof.
  intros Hne. induction d as [|[k' v'] d IH]; cbn.
  - destruct (Z.eqb_spec k k0); [congruence|reflexivity].
  - destruct (Z.eqb_spec k' k) as [->|Hne']; cbn.
    + destruct (Z.eqb_spec k k0); [congruence|reflexivity].
    + destruct (Z.eqb_spec k' k0); [reflexivity|exact IH].
Qed.


Lemma dict_set_ausente {V : Type} (k : Z) (v : V) (d : list (Z * V)) :
  objetos.dict_get k d = None -> objetos.dict_set k v d = d ++ [(k, v)].
Proof.
  induction d as [|[k' v'] d IH]; cbn; [reflexivity|].
  destruct (Z.eqb_spec k' k) as [->|Hne]; [discriminate|].
  intros H. now rewrite IH.
Qed.











(** ** Encoding an inbox again *)

Lemma descifrar_rsa_no_diverge (c n d k : Z) : descifrar_rsa c n d k <> Diverge.
Proof.
  unfold descifrar_rsa, potencia_mod_p, eliminar_padding, int_log10.
  destruct (n <=? 0); [discriminate|].
  destruct d; cbn [ligar_r];
    (destruct (0 <=? k); [|discriminate]);
    match goal with
    | |- context [if ?b then Raise ValueError else Ok ?x] =>
        destruct b; cbn [ligar_r]; [discriminate|];
        match goal with
        | |- context [if ?b' then _ else _] => destruct b'; discriminate
        end
    end.
Qed.

Lemma descifrar_cadena_rsa_no_diverge (clist : list Z) (n d k : Z) :
  descifrar_cadena_rsa clist n d k <> Diverge.
Proof.
  unfold descifrar_cadena_rsa. induction clist as [|c clist IH]; cbn [comprension_r];
    [discriminate|].
  pose proof (descifrar_rsa_no_diverge c n d k) as Hnd.
  destruct (descifrar_rsa c n d k) as [x| |]; cbn [ligar_r];
    [|discriminate|contradiction].
  unfold chr. destruct ((x <? -2147483648) || (2147483647 <? x)); cbn [ligar_r];
    [discriminate|].
  destruct ((0 <=? x) && (x <? 1114112)); cbn [ligar_r]; [|discriminate].
  destruct (comprension_r _ clist) as [s| |]; cbn [ligar_r];
    [discriminate|discriminate|contradiction].
Qed.

Lemma descifrar_todo_textos (n d digitos : Z) (l : list contenedor) :
  objetos.descifrar_todo n d digitos l
  = Ok (map (fun c : contenedor =>
               (fst (fst c), snd (fst c), texto_de n d digitos (snd c))) l).
Proof.
  induction l as [|[[a b] m] l IH]; cbn [objetos.descifrar_todo map fst snd];
    [reflexivity|].
  rewrite IH. destruct m as [clist|]; cbn [texto_de ligar_r]; [|reflexivity].
  pose proof (descifrar_cadena_rsa_no_diverge clist n d digitos) as Hnd.
  destruct (descifrar_cadena_rsa clist n d digitos); cbn; [reflexivity|reflexivity|].
  contradiction.
Qed.











Lemma valor_o_asercion_cifrar (s : cadena) (n e k : Z) (t : cinta) (i j : nat)
    (ex : excepcion) :
  cifrar_cadena_rsa s n e k t i = (Raise ex, j) -> objetos.valor_o_asercion ex = true.
Proof.
  intros H. apply cifrar_cadena_rsa_errores in H. destruct H as [-> | ->]; reflexivity.
Qed.

Lemma cifrar_todo_total (n e pd : Z) (temp : list (Z * cadena * option cadena)) :
  forall nuevo t i, exists l' j,
    objetos.cifrar_todo objetos.valor_o_asercion n e pd temp nuevo t i
    = (Ok tt, nuevo ++ l', j)
    /\ Forall2 (fun (x : Z * cadena * option cadena) (c' : contenedor) =>
                  fst c' = fst x /\ (snd x = None -> snd c' = None)) temp l'.
Proof.
  induction temp as [|[[a b] m] temp IH]; intros nuevo t i; cbn [objetos.cifrar_todo].
  - exists [], i. rewrite app_nil_r. split; [reflexivity|constructor].
  - destruct m as [texto|].
    + pose proof (cifrar_cadena_rsa_no_diverge texto n e pd t i) as Hnd.
      destruct (cifrar_cadena_rsa texto n e pd t i) as [[clist|ex|] j] eqn:Ec;
        cbn in Hnd; [| |contradiction].
      * destruct (IH (nuevo ++ [(a, b, Some clist)]) t j) as (l' & j' & El & Hl).
        exists ((a, b, Some clist) :: l'), j'. rewrite El, <- app_assoc.
        split; [reflexivity|]. constructor; [|exact Hl]. split; [reflexivity|discriminate].
      * rewrite (valor_o_asercion_cifrar _ _ _ _ _ _ _ _ Ec).
        destruct (IH (nuevo ++ [(a, b, None)]) t j) as (l' & j' & El & Hl).
        exists ((a, b, None) :: l'), j'. rewrite El, <- app_assoc.
        split; [reflexivity|]. constructor; [|exact Hl]. split; reflexivity.
    + destruct (IH (nuevo ++ [(a, b, None)]) t i) as (l' & j' & El & Hl).
      exists ((a, b, None) :: l'), j'. rewrite El, <- app_assoc.
      split; [reflexivity|]. constructor; [|exact Hl]. split; reflexivity.
Qed.

(** X15: [change_inbox_padding] never raises, whatever the key, the
    messages and the new digit count.  It changes the inbox of its user
    only: the new inbox has the same senders and dates in the same order,
    and a container that held [None], or whose message does not decrypt
    under the current key and padding, holds [None] afterwards. *)
Theorem X15_change_inbox_padding_no_falla (s : objetos.estado) (self : nat)
    (u : User) (padding_digits : Z) (t : cinta) (i : nat) :
  objetos.heap s !! self = Some u ->
  exists s' j u',
    objetos.change_inbox_padding self padding_digits s t i = (Ok tt, s', j)
    /\ objetos.heap s' !! self = Some u'
    /\ username u' = username u /\ user_key u' = user_key u /\ id u' = id u
    /\ (forall r, r <> self -> objetos.heap s' !! r = objetos.heap s !! r)
    /\ objetos.PADDING_DIGITS s' = objetos.PADDING_DIGITS s
    /\ match inbox u with
       | None => inbox u' = None
       | Some l =>
           exists l', inbox u' = Some l'
             /\ Forall2
                  (fun c c' : contenedor =>
                     fst c' = fst c
                     /\ (snd c = None -> snd c' = None)
                     /\ forall clist ex,
                          snd c = Some clist ->
                          descifrar_cadena_rsa clist (fst (public_key (user_key u)))
                            (snd (private_key (user_key u)))
                            (objetos.PADDING_DIGITS s) = Raise ex ->
                          snd c' = None) l l'
       end.
Proof.
  intros Hu. unfold objetos.change_inbox_padding. rewrite Hu.
  destruct (inbox u) as [[|c l]|] eqn:Hin.
  - exists s, i, u. rewrite Hin. split; [reflexivity|]. split; [exact Hu|].
    do 3 (split; [reflexivity|]). split; [reflexivity|]. split; [reflexivity|].
    exists []. split; [reflexivity|constructor].
  - unfold objetos.get_all_keys.
    set (n := fst (public_key (user_key u))).
    set (e := snd (public_key (user_key u))).
    set (d := snd (private_key (user_key u))).
    rewrite descifrar_todo_textos.
    destruct (cifrar_todo_total n e padding_digits
                (map (fun c0 : contenedor =>
                        (fst (fst c0), snd (fst c0),
                         texto_de n d (objetos.PADDING_DIGITS s) (snd c0))) (c :: l))
                [] t i) as (l' & j & El & Hl).
    rewrite El. cbn [app].
    eexists _, j, (objetos.con_inbox u (Some l')). split; [reflexivity|].
    cbn [objetos.registrar objetos.guardar objetos.heap objetos.PADDING_DIGITS].
    split; [apply lookup_insert_eq|]. do 3 (split; [reflexivity|]).
    split; [intros r Hr; now rewrite lookup_insert_ne|]. split; [reflexivity|].
    exists l'. split; [reflexivity|].
    apply Forall2_fmap_l in Hl. eapply Forall2_impl; [exact Hl|].
    intros [[a b] m] c' [Hf Hnone]. cbn [fst snd] in *.
    split; [exact Hf|]. split.
    + intros ->. now apply Hnone.
    + intros clist ex -> Hex. apply Hnone. cbn [texto_de]. now rewrite Hex.
  - exists s, i, u. rewrite Hin. split; [reflexivity|]. split; [exact Hu|].
    do 3 (split; [reflexivity|]). split; [reflexivity|]. split; reflexivity.
Qed.

Lemma X15_testigo :
  exists s' j u',
    objetos.change_inbox_padding 1%nat 50 estado_con_mensaje cinta_ejemplo 9%nat
    = (Ok tt, s', j)
    /\ objetos.heap s' !! 1%nat = Some u'
    /\ username u' = username blas_con_mensaje
    /\ user_key u' = user_key blas_con_mensaje /\ id u' = id blas_con_mensaje
    /\ (forall r, r <> 1%nat ->
          objetos.heap s' !! r = objetos.heap estado_con_mensaje !! r)
    /\ objetos.PADDING_DIGITS s' = objetos.PADDING_DIGITS estado_con_mensaje
    /\ match inbox blas_con_mensaje with
       | None => inbox u' = None
       | Some l =>
           exists l', inbox u' = Some l'
             /\ Forall2
                  (fun c c' : contenedor =>
                     fst c' = fst c
                     /\ (snd c = None -> snd c' = None)
                     /\ forall clist ex,
                          snd c = Some clist ->
                          descifrar_cadena_rsa clist
                            (fst (public_key (user_key blas_con_mensaje)))
                            (snd (private_key (user_key blas_con_mensaje)))
                            (objetos.PADDING_DIGITS estado_con_mensaje) = Raise ex ->
                          snd c' = None) l l'
       end.
Proof.
  apply (X15_change_inbox_padding_no_falla estado_con_mensaje 1%nat blas_con_mensaje
           50 cinta_ejemplo 9%nat).
  vm_compute. reflexivity.
Defined.

(** X18: unlike [change_inbox_padding], [change_inbox_key] names
    [AssertionError] only.  With a negative new modulus or exponent, as
    soon as the first message of the inbox decrypts to a non-empty text the
    [ValueError] of [cifrar_rsa] leaves [change_inbox_key], no random digit
    is drawn, and the inbox is left empty: every container is gone. *)
Theorem X18_change_inbox_key_escape (s : objetos.estado) (self : nat) (u : User)
    (a : Z) (b : cadena) (clist : list Z) (l : list contenedor)
    (c0 : Z) (texto : cadena) (prev_n prev_d new_n new_e : Z) (t : cinta) (i : nat) :
  objetos.heap s !! self = Some u ->
  inbox u = Some ((a, b, Some clist) :: l) ->
  descifrar_cadena_rsa clist prev_n prev_d (objetos.PADDING_DIGITS s)
  = Ok (c0 :: texto) ->
  new_n < 0 \/ new_e < 0 ->
  objetos.change_inbox_key self prev_n prev_d new_n new_e s t i
  = (Raise ValueError, objetos.guardar self (objetos.con_inbox u (Some [])) s, i).
Proof.
  intros Hu Hin Hd Hneg. unfold objetos.change_inbox_key. rewrite Hu, Hin.
  rewrite descifrar_todo_textos. cbn [map fst snd texto_de]. rewrite Hd.
  cbn [objetos.cifrar_todo]. unfold cifrar_cadena_rsa. cbn [comprension].
  unfold ligar at 1. rewrite cifrar_rsa_negativo by lia. reflexivity.
Qed.

Lemma X18_testigo :
  objetos.change_inbox_key 1%nat 100160063 35910881 (-1) 65537
    estado_con_mensaje cinta_ejemplo 9%nat
  = (Raise ValueError,
     objetos.guardar 1%nat (objetos.con_inbox blas_con_mensaje (Some []))
       estado_con_mensaje, 9%nat).
Proof.
  apply (X18_change_inbox_key_escape estado_con_mensaje 1%nat blas_con_mensaje
           0 (literal "03/11/2026") [20179010; 4605002; 41733612; 84675471] []
           72 [111; 108; 97]).
  - vm_compute. reflexivity.
  - vm_compute. reflexivity.
  - vm_compute. reflexivity.
  - left. lia.
Defined.

Lemma dict_get_ausente {V : Type} (k : Z) (d : list (Z * V)) :
  ~ In k (map fst d) -> objetos.dict_get k d = None.
Proof.
  induction d as [|[k' v] d IH]; cbn; [reflexivity|].
  intros Hnin. destruct (Z.eqb_spec k' k) as [->|Hne]; [tauto|]. apply IH. tauto.
Qed.

Lemma rango_menor (n k : Z) : In k (rango n) -> 0 <= k < n.
Proof.
  unfold rango. rewrite in_map_iff. intros (x & <- & Hx).
  apply in_seq in Hx. lia.
Qed.

Lemma rango_siguiente (len : nat) :
  rango (Z.of_nat (S len)) = rango (Z.of_nat len) ++ [Z.of_nat len].
Proof.
  unfold rango. rewrite !Nat2Z.id, seq_S, map_app. reflexivity.
Qed.

(** X19: [User.__init__] makes a new object, registers it under its id and
    touches no other object and no other id; without a [user_id], or with
    [user_id = 0], the id is [len(USERS)].  While the ids in [USERS] are
    [0, 1, ..., len - 1], a user created without an id is appended under
    the next number and replaces nobody. *)
Theorem X19_User_init (s : objetos.estado) (nombre : cadena) (clave : UserKey)
    (user_id : option Z) (buzon : option (list contenedor)) :
  let s' := fst (objetos.User_init nombre clave user_id buzon s) in
  let self := snd (objetos.User_init nombre clave user_id buzon s) in
  let len := Z.of_nat (length (objetos.USERS s)) in
  let idn := match user_id with
             | None => len
             | Some k => if k =? 0 then len else k
             end in
  objetos.heap s !! self = None
  /\ objetos.heap s' !! self = Some (mkUser nombre clave idn buzon)
  /\ objetos.find_user s' idn = Ok self
  /\ (forall r, r <> self -> objetos.heap s' !! r = objetos.heap s !! r)
  /\ (forall k, k <> idn -> objetos.find_user s' k = objetos.find_user s k)
  /\ (map fst (objetos.USERS s) = rango len ->
      user_id = None \/ user_id = Some 0 ->
      objetos.USERS s' = objetos.USERS s ++ [(len, self)]
      /\ map fst (objetos.USERS s') = rango (len + 1)).
Proof.
  cbn zeta. unfold objetos.User_init. cbn [fst snd objetos.heap objetos.USERS].
  set (self := fresh (dom (objetos.heap s))).
  set (len := Z.of_nat (length (objetos.USERS s))).
  set (idn := match user_id with
              | None => len
              | Some k => if k =? 0 then len else k
              end).
  split; [apply not_elem_of_dom, is_fresh|].
  split; [apply lookup_insert_eq|].
  split; [unfold objetos.find_user; cbn [objetos.USERS]; now rewrite dict_get_set_eq|].
  split; [intros r Hr; now rewrite lookup_insert_ne|].
  split.
  - intros k Hk. unfold objetos.find_user. cbn [objetos.USERS].
    now rewrite dict_get_set_ne.
  - intros Hdenso Hid.
    assert (idn = len) as -> by (destruct Hid as [-> | ->]; reflexivity).
    assert (objetos.dict_get len (objetos.USERS s) = None) as Hnone.
    { apply dict_get_ausente. rewrite Hdenso. intros Hin.
      apply rango_menor in Hin. lia. }
    rewrite (dict_set_ausente _ _ _ Hnone). split; [reflexivity|].
    rewrite map_app, Hdenso. cbn [map fst]. unfold len.
    replace (Z.of_nat (length (objetos.USERS s)) + 1)
      with (Z.of_nat (S (length (objetos.USERS s)))) by lia.
    now rewrite rango_siguiente.
Qed.

Lemma X19_testigo :
  let s' := fst (objetos.User_init (literal "eva") clave_nueve None None estado_ejemplo) in
  let self := snd (objetos.User_init (literal "eva") clave_nueve None None estado_ejemplo) in
  objetos.USERS s' = objetos.USERS estado_ejemplo ++ [(2, self)]
  /\ map fst (objetos.USERS s') = rango (2 + 1).
Proof.
  apply (proj2 (proj2 (proj2 (proj2 (proj2
           (X19_User_init estado_ejemplo (literal "eva") clave_nueve None None)))))).
  - reflexivity.
  - left. reflexivity.
Defined.

(** * Padding and the attack *)

Lemma cifrar_rsa_sin_padding (m n e : Z) :
  exists r, forall (t : cinta) (i : nat), cifrar_rsa m n e 0 t i = (r, i).
Proof.
  unfold cifrar_rsa.
  destruct ((m <? 0) || (n <? 0) || (e <? 0) || (0 <? 0)) eqn:Hg;
    [eexists; intros; reflexivity|].
  unfold ligar, elevar.
  destruct (int_log10 m) as [lm| |]; [|eexists; intros; reflexivity..].
  destruct (int_log10 n) as [ln| |]; [|eexists; intros; reflexivity..].
  destruct (lm + 1 + 0 <? ln + 1); [|eexists; intros; reflexivity].
  unfold aplicar_padding.
  destruct ((0 <? 0) || (m <? 0)); [eexists; intros; reflexivity|].
  change (Z.to_nat 0) with 0%nat. cbn [relleno]. unfold ligar, ret, elevar.
  destruct (int (append (str m) EmptyString)) as [m'| |];
    eexists; intros; reflexivity.
Qed.

(** X7: without padding the encryption draws nothing from the random
    source: [cifrar_cadena_rsa] with [digitos_padding = 0] leaves the tape
    where it was and gives the same result on every tape, so equal
    characters always get equal cipher values. *)
Theorem X7_sin_padding_determinista (s : cadena) (n e : Z) :
  exists r, forall (t : cinta) (i : nat), cifrar_cadena_rsa s n e 0 t i = (r, i).
Proof.
  unfold cifrar_cadena_rsa. induction s as [|c s [rs IH]]; cbn [comprension].
  - eexists. intros. reflexivity.
  - destruct (cifrar_rsa_sin_padding c n e) as [rc Hc].
    destruct rc as [x|ex|].
    + destruct rs as [xs|ex|]; eexists; intros t i; unfold ligar;
        rewrite Hc, IH; reflexivity.
    + eexists. intros t i. unfold ligar. rewrite Hc. reflexivity.
    + eexists. intros t i. unfold ligar. rewrite Hc. reflexivity.
Qed.


